(** * wormhole.py: the application-facing facade of a wormhole session

    A shallow embedding of [src/wormhole/wormhole.py]: the welcome handler,
    the delegate-style and the Deferred-style wormhole objects, the
    [create] factory and [from_serialized], together with the properties
    of their event bookkeeping.

    Python objects are modelled as follows.
    - A Python value is a [pyval]; [PyNone] is Python's [None].  A Twisted
      [failure.Failure] wrapping an exception is the [Failure] constructor of
      [pyobj], so the controller cannot hand one to the facade as a value.
    - A Twisted [Deferred] is a cell of a store ([heap]), addressed by its
      allocation index; the facade's observer lists hold such addresses, so
      the aliasing between the list held by the facade and the handle held
      by the application is kept.  Applications' own callbacks on a Deferred
      are outside the model: firing a Deferred records its result.
    - The session controller ([Boss]) is outside this file: the calls the
      facade makes on it are recorded in order.
    - [raise] is the [Raise] outcome of the monad [M]; the store keeps the
      mutations made before the exception. *)

From Stdlib Require Import ZArith Ascii String.
From stdpp Require Import base strings list gmap.

(** ** Python values *)

Inductive exc_class : Type :=
| WelcomeError
| NoKeyError
| WormholeClosed
| WrongPasswordError
| TypeError
| AlreadyCalledError
| OtherException (name : string).

Inductive pytype : Type :=
| TNoneType
| TBool
| TInt
| TText
| TBytes
| TType
| TException (cls : exc_class).

Inductive pyval : Type :=
| PyNone
| PyBool (b : bool)
| PyInt (n : Z)
| PyText (s : string)
| PyBytes (b : list Byte.byte)
| PyType (t : pytype)
| PyExc (cls : exc_class) (arg : pyval).

(** [failure.Failure(e)] against any other object. *)
Inductive pyobj : Type :=
| Plain (v : pyval)
| Failure (e : pyval).

(** [type(v)] *)
Definition type_of (v : pyval) : pytype :=
  match v with
  | PyNone => TNoneType
  | PyBool _ => TBool
  | PyInt _ => TInt
  | PyText _ => TText
  | PyBytes _ => TBytes
  | PyType _ => TType
  | PyExc cls _ => TException cls
  end.

(** [isinstance(v, type(""))], with [unicode_literals] in force. *)
Definition is_text (v : pyval) : bool :=
  match v with PyText _ => true | _ => false end.

(** [isinstance(v, Exception)]: every class of [exc_class] derives from
    [Exception]. *)
Definition is_exception (v : pyval) : bool :=
  match v with PyExc _ _ => true | _ => false end.

(** [v is None] *)
Definition is_none (v : pyval) : bool :=
  match v with PyNone => true | _ => false end.

Definition obj_is_none (o : pyobj) : bool :=
  match o with Plain v => is_none v | Failure _ => false end.

(** [bool(v)], the test made by [if v:] and [not v]. *)
Definition truthy (v : pyval) : bool :=
  match v with
  | PyNone => false
  | PyBool b => b
  | PyInt n => negb (n =? 0)%Z
  | PyText s => match s with EmptyString => false | String _ _ => true end
  | PyBytes b => match b with [] => false | _ :: _ => true end
  | PyType _ => true
  | PyExc _ _ => true
  end.

Definition obj_truthy (o : pyobj) : bool :=
  match o with Plain v => truthy v | Failure _ => true end.

(** ** Outcomes and the store *)

Inductive outcome (A : Type) : Type :=
| Return (a : A)
| Raise (e : pyval).
Arguments Return {A} a.
Arguments Raise {A} e.

(** A Deferred has either not fired yet or holds its result; a result that
    is a [Failure] puts it on the errback chain. *)
Inductive deferred : Type :=
| Pending
| Called (result : pyobj).

(** The calls the facade makes on [self._boss]; the [logger] handed to
    [set_trace] is a function of the application and is left out. *)
Inductive boss_call : Type :=
| B_start
| B_allocate_code (code_length : pyval)
| B_input_code (stdio : pyval)
| B_set_code (code : pyval)
| B_send (plaintext : pyval)
| B_close
| B_set_trace (client_name which : pyval)
| B__set_trace (client_name which : pyval).

(** The store threaded through a facade of state [S]: the facade's own
    attributes, the Deferreds allocated so far, the firings in the order
    they happened, and the calls made on the controller. *)
Record store (S : Type) : Type := Store {
  self : S;
  heap : list deferred;
  fired : list (nat * pyobj);
  boss : list boss_call;
}.
Arguments Store {S} _ _ _ _.
Arguments self {S} _.
Arguments heap {S} _.
Arguments fired {S} _.
Arguments boss {S} _.

Definition M (S A : Type) : Type := store S → outcome A * store S.

#[global] Instance M_ret {S} : MRet (M S) :=
  λ A a w, (Return a, w).

#[global] Instance M_bind {S} : MBind (M S) :=
  λ A B k m w,
    match m w with
    | (Return a, w') => k a w'
    | (Raise e, w') => (Raise e, w')
    end.

Definition raise {S A} (e : pyval) : M S A := λ w, (Raise e, w).

Definition get_self {S} : M S S := λ w, (Return (self w), w).

Definition modify_self {S} (f : S → S) : M S unit :=
  λ w, (Return (), Store (f (self w)) (heap w) (fired w) (boss w)).

Definition call_boss {S} (c : boss_call) : M S unit :=
  λ w, (Return (), Store (self w) (heap w) (fired w) (boss w ++ [c])).

(** [b.start()], the last step of [create]. *)
Definition start {S} (w : store S) : store S :=
  snd (call_boss B_start w).

(** [defer.Deferred()] *)
Definition new_Deferred {S} : M S nat :=
  λ w, (Return (length (heap w)),
        Store (self w) (heap w ++ [Pending]) (fired w) (boss w)).

(** [d.callback(result)]: a Deferred fires once; a second firing raises
    [AlreadyCalledError].  The facade only holds addresses that
    [new_Deferred] gave it, so the lookup does not fail. *)
Definition callback {S} (d : nat) (result : pyobj) : M S unit :=
  λ w, match heap w !! d with
       | Some Pending =>
           (Return (),
            Store (self w) (<[d := Called result]> (heap w))
                  (fired w ++ [(d, result)]) (boss w))
       | _ => (Raise (PyExc AlreadyCalledError PyNone), w)
       end.

(** [d.errback(fail)]: anything that is not a [Failure] is wrapped in one. *)
Definition as_Failure (o : pyobj) : pyobj :=
  match o with
  | Plain e => Failure e
  | Failure e => Failure e
  end.

Definition errback {S} (d : nat) (fail : pyobj) : M S unit :=
  callback d (as_Failure fail).

(** [defer.succeed(result)] and [defer.fail(result)] *)
Definition succeed {S} (result : pyobj) : M S nat :=
  d ← new_Deferred; callback d result;; mret d.

Definition fail {S} (result : pyobj) : M S nat :=
  d ← new_Deferred; errback d result;; mret d.

(** [for d in ds: body(d)] *)
Fixpoint for_each {S} (ds : list nat) (body : nat → M S unit) : M S unit :=
  match ds with
  | [] => mret ()
  | d :: ds' => body d;; for_each ds' body
  end.

(** [fire ds r h]: the heap after the Deferreds [ds] fired with [r], one
    after the other. *)
Fixpoint fire (ds : list nat) (r : pyobj) (h : list deferred) : list deferred :=
  match ds with
  | [] => h
  | d :: ds' => fire ds' r (<[d := Called r]> h)
  end.

(** ** Text operations of the Python runtime

    A text is a sequence of code points below 256. *)

Definition LF : ascii := "010"%char.
Definition CR : ascii := "013"%char.

(** The line boundaries of [str.splitlines]: LF, VT, FF, CR, FS, GS, RS and
    NEL. *)
Definition is_linebreak (c : ascii) : bool :=
  match nat_of_ascii c with
  | 10 | 11 | 12 | 13 | 28 | 29 | 30 | 133 => true
  | _ => false
  end.

(** [splitlines_from line after_cr s]: [line] is the text read since the
    last boundary, [after_cr] tells that the last character was a CR, whose
    following LF belongs to the same boundary. *)
Fixpoint splitlines_from (line : string) (after_cr : bool) (s : string)
  : list string :=
  match s with
  | EmptyString =>
      match line with EmptyString => [] | _ => [line] end
  | String c s' =>
      if after_cr && Ascii.eqb c LF then splitlines_from line false s'
      else if is_linebreak c then
        line :: splitlines_from EmptyString (Ascii.eqb c CR) s'
      else splitlines_from (line +:+ String c EmptyString) false s'
  end.

(** [s.splitlines()] *)
Definition splitlines (s : string) : list string :=
  splitlines_from EmptyString false s.

(** [sep.join(l)] *)
Definition join (sep : string) (l : list string) : string :=
  String.concat sep l.

(** [needle in hay] on texts. *)
Fixpoint str_in (needle hay : string) : bool :=
  String.prefix needle hay ||
  match hay with
  | EmptyString => false
  | String _ hay' => str_in needle hay'
  end.

(** ** [class _WelcomeHandler] *)

Module WelcomeHandler.

(** What the constructor receives as [signal_error]: a callable of the
    controller, or the constant [NotImplemented] that [create] passes. *)
Inductive signal_error_arg : Type :=
| Callable
| NotImplemented.

Record t : Type := mk {
  _ws_url : string;
  _version_warning_displayed : bool;
  _current_version : string;
  _signal_error : signal_error_arg;
}.

Definition __init__ (url current_version : string)
    (signal_error : signal_error_arg) : t :=
  {| _ws_url := url;
     _version_warning_displayed := false;
     _current_version := current_version;
     _signal_error := signal_error |}.

(** How a call of [handle_welcome] ends: it returns [None], it returns
    what [self._signal_error(err, what)] returns, or it raises. *)
Inductive ending : Type :=
| Returned
| Signalled (err : pyval) (what : string)
| Raised (e : pyval).

Definition not_callable : pyval :=
  PyExc TypeError (PyText "'NotImplementedType' object is not callable").

Definition version_warning : string :=
  "Warning: errors may occur unless both sides are running the same version".

Definition motd_message (url motd_formatted : string) : string :=
  "Server (at " +:+ url +:+ ") says:" +:+ String LF " " +:+ motd_formatted.

Definition server_claims (theirs ours : string) : string :=
  "Server claims " +:+ theirs +:+ " is current, but ours is " +:+ ours.

Definition set_version_warning_displayed (self : t) (b : bool) : t :=
  {| _ws_url := _ws_url self;
     _version_warning_displayed := b;
     _current_version := _current_version self;
     _signal_error := _signal_error self |}.

(** [handle_welcome(self, welcome)]: the handler afterwards, the lines
    printed on [sys.stderr] (one per [print]) and the ending.  A welcome
    is a dict from keys to texts. *)
Definition handle_welcome (self : t) (welcome : gmap string string)
  : t * list string * ending :=
  let printed1 :=
    match welcome !! "motd" with
    | Some motd =>
        let motd_lines := splitlines motd in
        let motd_formatted := join (String LF " ") motd_lines in
        [motd_message (_ws_url self) motd_formatted]
    | None => []
    end in
  let '(self2, printed2) :=
    match welcome !! "current_cli_version" with
    | Some theirs =>
        if negb (str_in "-" (_current_version self))
           && negb (_version_warning_displayed self)
           && negb (String.eqb theirs (_current_version self))
        then
          (set_version_warning_displayed self true,
           [version_warning; server_claims theirs (_current_version self)])
        else (self, [])
    | None => (self, [])
    end in
  let ending :=
    match welcome !! "error" with
    | Some error =>
        match _signal_error self2 with
        | Callable => Signalled (PyExc WelcomeError (PyText error)) "unwelcome"
        | NotImplemented => Raised not_callable
        end
    | None => Returned
    end in
  (self2, printed1 ++ printed2, ending).

(** The welcome events of a session, delivered in order to one handler;
    an exception of one call is the caller's and does not stop the
    deliveries. *)
Fixpoint deliver (self : t) (welcomes : list (gmap string string))
  : t * list string :=
  match welcomes with
  | [] => (self, [])
  | welcome :: rest =>
      let '(self', printed, _) := handle_welcome self welcome in
      let '(self'', printed') := deliver self' rest in
      (self'', printed ++ printed')
  end.

End WelcomeHandler.

(** ** Functions imported from the rest of the package

    [derive_key] of [._key] and [to_bytes] of [.util] are called by both
    facades and defined elsewhere; the facades are stated over any
    implementation of them.  [key_derive_key key purpose length] may itself
    raise. *)
Class Externals : Type := {
  key_derive_key : pyval → pyval → pyval → outcome pyval;
  to_bytes : string → list Byte.byte;
}.

Definition lift {S A} (o : outcome A) : M S A := λ w, (o, w).

(** ** [class _DelegatedWormhole] *)

Module DelegatedWormhole.

(** The methods of the delegate, as the facade calls them. *)
Inductive notification : Type :=
| wormhole_got_code (code : pyval)
| wormhole_got_verifier (verifier : pyval)
| wormhole_got_version (version : pyval)
| wormhole_received (plaintext : pyval)
| wormhole_closed (result : pyval).

(** The delegate is represented by the notifications it has received. *)
Record t : Type := mk {
  _delegate : list notification;
  _key : pyval;
}.

(** [_DelegatedWormhole(delegate)]: the attribute that [attrs] sets, then
    [__attrs_post_init__]. *)
Definition __init__ (delegate : list notification) : t :=
  {| _delegate := delegate; _key := PyNone |}.

Definition set_key (self : t) (key : pyval) : t :=
  {| _delegate := _delegate self; _key := key |}.

Definition notify (self : t) (n : notification) : t :=
  {| _delegate := _delegate self ++ [n]; _key := _key self |}.

Section Methods.
Context `{!Externals}.

(** from above *)
Definition allocate_code (code_length : pyval) : M t unit :=
  call_boss (B_allocate_code code_length).

Definition input_code (stdio : pyval) : M t unit :=
  call_boss (B_input_code stdio).

Definition set_code (code : pyval) : M t unit :=
  call_boss (B_set_code code).

Definition send (plaintext : pyval) : M t unit :=
  call_boss (B_send plaintext).

Definition derive_key (purpose length : pyval) : M t pyval :=
  match purpose with
  | PyText p =>
      self ← get_self;
      if negb (truthy (_key self)) then raise (PyExc NoKeyError PyNone)
      else lift (key_derive_key (_key self) (PyBytes (to_bytes p)) length)
  | _ => raise (PyExc TypeError (PyType (type_of purpose)))
  end.

Definition close : M t unit :=
  call_boss B_close.

Definition debug_set_trace (client_name which : pyval) : M t unit :=
  call_boss (B_set_trace client_name which).

(** from below *)
Definition got_code (code : pyval) : M t unit :=
  modify_self (λ self, notify self (wormhole_got_code code)).

Definition got_welcome (welcome : gmap string string) : M t unit :=
  mret ().

Definition got_key (key : pyval) : M t unit :=
  modify_self (λ self, set_key self key).

Definition got_verifier (verifier : pyval) : M t unit :=
  modify_self (λ self, notify self (wormhole_got_verifier verifier)).

Definition got_version (version : pyval) : M t unit :=
  modify_self (λ self, notify self (wormhole_got_version version)).

Definition received (plaintext : pyval) : M t unit :=
  modify_self (λ self, notify self (wormhole_received plaintext)).

Definition closed (result : pyval) : M t unit :=
  modify_self (λ self, notify self (wormhole_closed result)).

End Methods.

(** The delegate-style facade that [create] hands back. *)
Definition fresh (delegate : list notification) : store t :=
  start (Store (__init__ delegate) [] [] []).

End DelegatedWormhole.

(** ** [class _DeferredWormhole] *)

Module DeferredWormhole.

Record t : Type := mk {
  _code : pyval;
  _code_observers : list nat;
  _key : pyval;
  _verifier : pyval;
  _verifier_observers : list nat;
  _version : pyval;
  _version_observers : list nat;
  _received_data : list pyval;
  _received_observers : list nat;
  _observer_result : pyobj;
  _closed_result : pyobj;
  _closed_observers : list nat;
}.

Definition __init__ : t :=
  {| _code := PyNone;
     _code_observers := [];
     _key := PyNone;
     _verifier := PyNone;
     _verifier_observers := [];
     _version := PyNone;
     _version_observers := [];
     _received_data := [];
     _received_observers := [];
     _observer_result := Plain PyNone;
     _closed_result := Plain PyNone;
     _closed_observers := [] |}.

(** Attribute assignments. *)
Definition set__code (x : pyval) (s : t) : t :=
  mk x (_code_observers s) (_key s) (_verifier s) (_verifier_observers s)
     (_version s) (_version_observers s) (_received_data s)
     (_received_observers s) (_observer_result s) (_closed_result s)
     (_closed_observers s).

Definition set__code_observers (x : list nat) (s : t) : t :=
  mk (_code s) x (_key s) (_verifier s) (_verifier_observers s)
     (_version s) (_version_observers s) (_received_data s)
     (_received_observers s) (_observer_result s) (_closed_result s)
     (_closed_observers s).

Definition set__key (x : pyval) (s : t) : t :=
  mk (_code s) (_code_observers s) x (_verifier s) (_verifier_observers s)
     (_version s) (_version_observers s) (_received_data s)
     (_received_observers s) (_observer_result s) (_closed_result s)
     (_closed_observers s).

Definition set__verifier (x : pyval) (s : t) : t :=
  mk (_code s) (_code_observers s) (_key s) x (_verifier_observers s)
     (_version s) (_version_observers s) (_received_data s)
     (_received_observers s) (_observer_result s) (_closed_result s)
     (_closed_observers s).

Definition set__verifier_observers (x : list nat) (s : t) : t :=
  mk (_code s) (_code_observers s) (_key s) (_verifier s) x
     (_version s) (_version_observers s) (_received_data s)
     (_received_observers s) (_observer_result s) (_closed_result s)
     (_closed_observers s).

Definition set__version (x : pyval) (s : t) : t :=
  mk (_code s) (_code_observers s) (_key s) (_verifier s)
     (_verifier_observers s) x (_version_observers s) (_received_data s)
     (_received_observers s) (_observer_result s) (_closed_result s)
     (_closed_observers s).

Definition set__version_observers (x : list nat) (s : t) : t :=
  mk (_code s) (_code_observers s) (_key s) (_verifier s)
     (_verifier_observers s) (_version s) x (_received_data s)
     (_received_observers s) (_observer_result s) (_closed_result s)
     (_closed_observers s).

Definition set__received_data (x : list pyval) (s : t) : t :=
  mk (_code s) (_code_observers s) (_key s) (_verifier s)
     (_verifier_observers s) (_version s) (_version_observers s) x
     (_received_observers s) (_observer_result s) (_closed_result s)
     (_closed_observers s).

Definition set__received_observers (x : list nat) (s : t) : t :=
  mk (_code s) (_code_observers s) (_key s) (_verifier s)
     (_verifier_observers s) (_version s) (_version_observers s)
     (_received_data s) x (_observer_result s) (_closed_result s)
     (_closed_observers s).

Definition set__observer_result (x : pyobj) (s : t) : t :=
  mk (_code s) (_code_observers s) (_key s) (_verifier s)
     (_verifier_observers s) (_version s) (_version_observers s)
     (_received_data s) (_received_observers s) x (_closed_result s)
     (_closed_observers s).

Definition set__closed_result (x : pyobj) (s : t) : t :=
  mk (_code s) (_code_observers s) (_key s) (_verifier s)
     (_verifier_observers s) (_version s) (_version_observers s)
     (_received_data s) (_received_observers s) (_observer_result s) x
     (_closed_observers s).

Definition set__closed_observers (x : list nat) (s : t) : t :=
  mk (_code s) (_code_observers s) (_key s) (_verifier s)
     (_verifier_observers s) (_version s) (_version_observers s)
     (_received_data s) (_received_observers s) (_observer_result s)
     (_closed_result s) x.

Section Methods.
Context `{!Externals}.

(** from above *)
Definition when_code : M t nat :=
  self ← get_self;
  if negb (obj_is_none (_observer_result self)) then
    fail (_observer_result self)
  else if negb (is_none (_code self)) then
    succeed (Plain (_code self))
  else
    d ← new_Deferred;
    modify_self (λ self,
      set__code_observers (_code_observers self ++ [d]) self);;
    mret d.

Definition when_verifier : M t nat :=
  self ← get_self;
  if negb (obj_is_none (_observer_result self)) then
    fail (_observer_result self)
  else if negb (is_none (_verifier self)) then
    succeed (Plain (_verifier self))
  else
    d ← new_Deferred;
    modify_self (λ self,
      set__verifier_observers (_verifier_observers self ++ [d]) self);;
    mret d.

Definition when_version : M t nat :=
  self ← get_self;
  if negb (obj_is_none (_observer_result self)) then
    fail (_observer_result self)
  else if negb (is_none (_version self)) then
    succeed (Plain (_version self))
  else
    d ← new_Deferred;
    modify_self (λ self,
      set__version_observers (_version_observers self ++ [d]) self);;
    mret d.

(** [if self._received_data:] and [.pop(0)] are the two branches of the
    match on the list. *)
Definition when_received : M t nat :=
  self ← get_self;
  if negb (obj_is_none (_observer_result self)) then
    fail (_observer_result self)
  else
    match _received_data self with
    | plaintext :: rest =>
        modify_self (set__received_data rest);;
        succeed (Plain plaintext)
    | [] =>
        d ← new_Deferred;
        modify_self (λ self,
          set__received_observers (_received_observers self ++ [d]) self);;
        mret d
    end.

Definition allocate_code (code_length : pyval) : M t unit :=
  call_boss (B_allocate_code code_length).

Definition input_code (stdio : pyval) : M t unit :=
  call_boss (B_input_code stdio).

Definition set_code (code : pyval) : M t unit :=
  call_boss (B_set_code code).

Definition send (plaintext : pyval) : M t unit :=
  call_boss (B_send plaintext).

Definition derive_key (purpose length : pyval) : M t pyval :=
  match purpose with
  | PyText p =>
      self ← get_self;
      if negb (truthy (_key self)) then raise (PyExc NoKeyError PyNone)
      else lift (key_derive_key (_key self) (PyBytes (to_bytes p)) length)
  | _ => raise (PyExc TypeError (PyType (type_of purpose)))
  end.

Definition close : M t nat :=
  self ← get_self;
  if obj_truthy (_closed_result self) then
    succeed (_closed_result self)
  else
    d ← new_Deferred;
    modify_self (λ self,
      set__closed_observers (_closed_observers self ++ [d]) self);;
    call_boss B_close;;
    mret d.

Definition debug_set_trace (client_name which : pyval) : M t unit :=
  call_boss (B__set_trace client_name which).

(** from below *)
Definition got_code (code : pyval) : M t unit :=
  modify_self (set__code code);;
  self ← get_self;
  for_each (_code_observers self) (λ d, callback d (Plain code));;
  modify_self (set__code_observers []).

Definition got_welcome (welcome : gmap string string) : M t unit :=
  mret ().

Definition got_key (key : pyval) : M t unit :=
  modify_self (set__key key).

Definition got_verifier (verifier : pyval) : M t unit :=
  modify_self (set__verifier verifier);;
  self ← get_self;
  for_each (_verifier_observers self) (λ d, callback d (Plain verifier));;
  modify_self (set__verifier_observers []).

Definition got_version (version : pyval) : M t unit :=
  modify_self (set__version version);;
  self ← get_self;
  for_each (_version_observers self) (λ d, callback d (Plain version));;
  modify_self (set__version_observers []).

Definition received (plaintext : pyval) : M t unit :=
  self ← get_self;
  match _received_observers self with
  | d :: rest =>
      modify_self (set__received_observers rest);;
      callback d (Plain plaintext)
  | [] =>
      modify_self (λ self,
        set__received_data (_received_data self ++ [plaintext]) self)
  end.

Definition closed (result : pyval) : M t unit :=
  (if is_exception result then
     modify_self (λ self,
       set__observer_result (Failure result)
         (set__closed_result (Failure result) self))
   else
     modify_self (set__observer_result
                    (Plain (PyExc WormholeClosed result)));;
     modify_self (set__closed_result (Plain result)));;
  self ← get_self;
  for_each (_verifier_observers self)
           (λ d, errback d (_observer_result self));;
  for_each (_version_observers self)
           (λ d, errback d (_observer_result self));;
  for_each (_received_observers self)
           (λ d, errback d (_observer_result self));;
  for_each (_closed_observers self)
           (λ d, callback d (_closed_result self)).

End Methods.

(** The Deferred-style facade that [create] hands back. *)
Definition fresh : store t :=
  start (Store __init__ [] [] []).

End DeferredWormhole.

(** ** [create] *)

(** The [welcome_handler] the controller ends up with: the application's
    own callable, or the bound method [wh.handle_welcome] of a handler built
    by [create]. *)
Inductive welcome_handler : Type :=
| custom_handler (name : string)
| bound_handle_welcome (wh : WelcomeHandler.t).

Inductive wormhole : Type :=
| Delegated_wormhole (w : store DelegatedWormhole.t)
| Deferred_wormhole (w : store DeferredWormhole.t).

(** What [Boss(w, side, relay_url, appid, welcome_handler, ...)] is built
    from; [reactor], [journal], [tor_manager] and [timing] are handed over
    untouched and left out. *)
Record Boss : Type := {
  boss_side : string;
  boss_relay_url : string;
  boss_appid : string;
  boss_welcome_handler : welcome_handler;
}.

(** An object of the application handed to [create]: what [bool(obj)]
    gives, which is true unless the class of the object says otherwise,
    and the object itself. *)
Record given (A : Type) : Type := Given {
  given_truthy : bool;
  given_obj : A;
}.
Arguments Given {A} _ _.
Arguments given_truthy {A} _.
Arguments given_obj {A} _.

Section Factory.
(** [from . import __version__] *)
Variable __version__ : string.

(** [create(appid, relay_url, reactor, delegate, ..., welcome_handler)];
    [side] stands for [bytes_to_hexstr(os.urandom(5))]; [delegate] and
    [welcome_handler] are [None] or an object of the application, the
    delegate being given by the notifications it holds and the handler
    by its name.  Both are tested for truth, not for [None]. *)
Definition create (appid relay_url side : string)
    (delegate : option (given (list DelegatedWormhole.notification)))
    (welcome_handler : option (given string)) : wormhole * Boss :=
  let default_handler :=
    let signal_error := WelcomeHandler.NotImplemented in
    let wh := WelcomeHandler.__init__ relay_url __version__ signal_error in
    bound_handle_welcome wh in
  let welcome_handler :=
    match welcome_handler with
    | Some handler =>
        if given_truthy handler then custom_handler (given_obj handler)
        else default_handler
    | None => default_handler
    end in
  let b := {| boss_side := side; boss_relay_url := relay_url;
              boss_appid := appid;
              boss_welcome_handler := welcome_handler |} in
  match delegate with
  | Some app =>
      if given_truthy app then
        (Delegated_wormhole (DelegatedWormhole.fresh (given_obj app)), b)
      else (Deferred_wormhole DeferredWormhole.fresh, b)
  | None => (Deferred_wormhole DeferredWormhole.fresh, b)
  end.

End Factory.

(** ** Sessions of the Deferred-style facade

    A session is the sequence of calls that the application (from above)
    and the controller (from below) make on one facade. *)

Module Session.
Import DeferredWormhole.

Inductive call : Type :=
| When_code
| When_verifier
| When_version
| When_received
| Allocate_code (code_length : pyval)
| Input_code (stdio : pyval)
| Set_code (code : pyval)
| Send (plaintext : pyval)
| Derive_key (purpose length : pyval)
| Close
| Debug_set_trace (client_name which : pyval)
| Got_code (code : pyval)
| Got_welcome (welcome : gmap string string)
| Got_key (key : pyval)
| Got_verifier (verifier : pyval)
| Got_version (version : pyval)
| Received (plaintext : pyval)
| Closed (result : pyval).

(** What a call hands back: nothing, a Deferred, or a value. *)
Inductive answer : Type :=
| Nothing
| Future (d : nat)
| Value (v : pyval).

Section Run.
Context `{!Externals}.

Definition invoke (c : call) : M t answer :=
  match c with
  | When_code => d ← when_code; mret (Future d)
  | When_verifier => d ← when_verifier; mret (Future d)
  | When_version => d ← when_version; mret (Future d)
  | When_received => d ← when_received; mret (Future d)
  | Allocate_code n => allocate_code n;; mret Nothing
  | Input_code stdio => input_code stdio;; mret Nothing
  | Set_code code => set_code code;; mret Nothing
  | Send plaintext => send plaintext;; mret Nothing
  | Derive_key purpose length => v ← derive_key purpose length; mret (Value v)
  | Close => d ← close; mret (Future d)
  | Debug_set_trace client_name which =>
      debug_set_trace client_name which;; mret Nothing
  | Got_code code => got_code code;; mret Nothing
  | Got_welcome welcome => got_welcome welcome;; mret Nothing
  | Got_key key => got_key key;; mret Nothing
  | Got_verifier verifier => got_verifier verifier;; mret Nothing
  | Got_version version => got_version version;; mret Nothing
  | Received plaintext => received plaintext;; mret Nothing
  | Closed result => closed result;; mret Nothing
  end.

(** The calls of a session one after the other: the outcome of each and
    the store at the end.  A call that raises leaves the session
    running. *)
Fixpoint run (cs : list call) (w : store t)
  : list (outcome answer) * store t :=
  match cs with
  | [] => ([], w)
  | c :: cs' =>
      let '(o, w') := invoke c w in
      let '(os, w'') := run cs' w' in
      (o :: os, w'')
  end.

Definition outcomes (cs : list call) (w : store t) : list (outcome answer) :=
  fst (run cs w).

Definition final (cs : list call) (w : store t) : store t :=
  snd (run cs w).

End Run.

(** The five families of Deferreds the facade hands out, each with its
    list of observers. *)
Inductive kind : Type :=
| K_code
| K_verifier
| K_version
| K_received
| K_close.

#[global] Instance kind_eq_dec : EqDecision kind.
Proof. solve_decision. Defined.

Definition observers (k : kind) (s : t) : list nat :=
  match k with
  | K_code => _code_observers s
  | K_verifier => _verifier_observers s
  | K_version => _version_observers s
  | K_received => _received_observers s
  | K_close => _closed_observers s
  end.

Definition kind_of (c : call) : option kind :=
  match c with
  | When_code => Some K_code
  | When_verifier => Some K_verifier
  | When_version => Some K_version
  | When_received => Some K_received
  | Close => Some K_close
  | _ => None
  end.

(** The Deferred that a call of kind [k] handed back, if [c] is one. *)
Definition issued_by (k : kind) (c : call) (o : outcome answer) : list nat :=
  match o with
  | Return (Future d) => if decide (kind_of c = Some k) then [d] else []
  | _ => []
  end.

(** The Deferreds handed back by the calls of kind [k] of a session, in
    the order of the calls. *)
Fixpoint issued (k : kind) (cs : list call) (os : list (outcome answer))
  : list nat :=
  match cs, os with
  | c :: cs', o :: os' => issued_by k c o ++ issued k cs' os'
  | _, _ => []
  end.

Definition is_Closed (c : call) : bool :=
  match c with Closed _ => true | _ => false end.

(** A stretch of a session in which [closed] does not fire. *)
Definition calm (cs : list call) : bool :=
  forallb (λ c, negb (is_Closed c)) cs.

(** What [closed(result)] stores in [self._closed_result]. *)
Definition terminal (result : pyval) : pyobj :=
  if is_exception result then Failure result else Plain result.

(** What [closed(result)] stores in [self._observer_result]. *)
Definition sticky (result : pyval) : pyobj :=
  if is_exception result then Failure result
  else Plain (PyExc WormholeClosed result).

Definition is_B_close (c : boss_call) : bool :=
  match c with B_close => true | _ => false end.

(** How many times the facade called [self._boss.close()]. *)
Definition boss_closes (w : store t) : nat :=
  length (filter (λ c, is_B_close c = true) (boss w)).

Definition is_Close (c : call) : bool :=
  match c with Close => true | _ => false end.

Definition closes (cs : list call) : nat :=
  length (filter (λ c, is_Close c = true) cs).

End Session.

(** ** Relations between the stores before and after a call *)

(** [keeps R m]: running [m] takes every store to one related to it by [R],
    whether it returns or raises. *)
Definition keeps {S A} (R : relation (store S)) (m : M S A) : Prop :=
  ∀ w, R w (snd (m w)).

(** Deferreds are only ever added, and one that has fired keeps its
    result. *)
Definition heap_le {S} (w w' : store S) : Prop :=
  length (heap w) ≤ length (heap w') ∧
  ∀ d x, heap w !! d = Some (Called x) → heap w' !! d = Some (Called x).

(** The terminal results and the number of [self._boss.close()] calls are
    untouched. *)
Definition quiet (w w' : store DeferredWormhole.t) : Prop :=
  DeferredWormhole._closed_result (self w')
  = DeferredWormhole._closed_result (self w) ∧
  DeferredWormhole._observer_result (self w')
  = DeferredWormhole._observer_result (self w) ∧
  Session.boss_closes w' = Session.boss_closes w.

(** The invariant of a session in which [closed] has not fired, against the
    Deferreds [iss k] handed out so far for each kind [k]: the observers of
    kind [k] are exactly the Deferreds of [iss k] that have not fired, and
    no Deferred of [close] has. *)
Record track (w : store DeferredWormhole.t) (iss : Session.kind → list nat)
  : Prop := Track {
  track_observer_result :
    DeferredWormhole._observer_result (self w) = Plain PyNone;
  track_closed_result :
    DeferredWormhole._closed_result (self w) = Plain PyNone;
  track_observers : ∀ k d,
    d ∈ Session.observers k (self w) ↔ d ∈ iss k ∧ heap w !! d = Some Pending;
  track_NoDup : ∀ k, NoDup (Session.observers k (self w));
  track_bound : ∀ k d, d ∈ iss k → d < length (heap w);
  track_kind : ∀ k k' d, d ∈ iss k → d ∈ iss k' → k = k';
  track_close_pending : ∀ d,
    d ∈ iss Session.K_close → heap w !! d = Some Pending;
}.

(** The terminal results are untouched. *)
Definition settled (w w' : store DeferredWormhole.t) : Prop :=
  DeferredWormhole._closed_result (self w')
  = DeferredWormhole._closed_result (self w) ∧
  DeferredWormhole._observer_result (self w')
  = DeferredWormhole._observer_result (self w).

(** ** A stand-in for the imported functions

    Used to run sessions on concrete inputs: [derive_key] of [._key] checks
    the types of its arguments, and the key material is stood for by the
    key followed by the purpose. *)
Definition sample_externals : Externals := {|
  key_derive_key key purpose length :=
    match key, purpose, length with
    | PyBytes k, PyBytes p, PyInt _ => Return (PyBytes (k ++ p))
    | PyBytes _, PyBytes _, _ => Raise (PyExc TypeError (PyType (type_of length)))
    | PyBytes _, _, _ => Raise (PyExc TypeError (PyType (type_of purpose)))
    | _, _, _ => Raise (PyExc TypeError (PyType (type_of key)))
    end;
  to_bytes s := map byte_of_ascii (list_ascii_of_string s);
|}.

(** ** Vocabulary of the statements *)

(** The key that the controller delivered last in a session, starting
    from [key]. *)
Fixpoint last_key (cs : list Session.call) (key : pyval) : pyval :=
  match cs with
  | [] => key
  | Session.Got_key k :: cs' => last_key cs' k
  | _ :: cs' => last_key cs' key
  end.

(** The key attribute is untouched. *)
Definition same_key (w w' : store DeferredWormhole.t) : Prop :=
  DeferredWormhole._key (self w') = DeferredWormhole._key (self w).

(** What [derive_key(purpose, length)] does on a facade holding [key],
    read off the method. *)
Definition derive_key_outcome `{!Externals} (key purpose length : pyval)
  : outcome pyval :=
  match purpose with
  | PyText p =>
      if truthy key then key_derive_key key (PyBytes (to_bytes p)) length
      else Raise (PyExc NoKeyError PyNone)
  | _ => Raise (PyExc TypeError (PyType (type_of purpose)))
  end.

(** The condition of the second [if] of [handle_welcome]. *)
Definition should_warn (self : WelcomeHandler.t)
    (welcome : gmap string string) : bool :=
  match welcome !! "current_cli_version" with
  | Some theirs =>
      negb (str_in "-" (WelcomeHandler._current_version self))
      && negb (WelcomeHandler._version_warning_displayed self)
      && negb (String.eqb theirs (WelcomeHandler._current_version self))
  | None => false
  end.

(** How many times the version warning is among the lines printed. *)
Definition warnings (printed : list string) : nat :=
  length (filter (λ line, line = WelcomeHandler.version_warning) printed).

(** The two sides of the exchange of messages: the controller delivers a
    payload, the application asks for one. *)
Inductive exchange : Type :=
| Deliver (plaintext : pyval)
| Ask.

Definition exchange_call (x : exchange) : Session.call :=
  match x with
  | Deliver plaintext => Session.Received plaintext
  | Ask => Session.When_received
  end.

(** The payloads delivered, in the order of delivery. *)
Fixpoint payloads (xs : list exchange) : list pyval :=
  match xs with
  | [] => []
  | Deliver plaintext :: xs' => plaintext :: payloads xs'
  | Ask :: xs' => payloads xs'
  end.

(** How many payloads the application asked for. *)
Fixpoint asks (xs : list exchange) : nat :=
  match xs with
  | [] => 0
  | Deliver _ :: xs' => asks xs'
  | Ask :: xs' => S (asks xs')
  end.

(** The state of the exchange against the payloads [ps] delivered and the
    Deferreds [rs] handed out so far: request [i] holds payload [i] when
    there is one and is pending otherwise, and the two queues are what is
    left over on either side. *)
Record fifo (w : store DeferredWormhole.t) (ps : list pyval) (rs : list nat)
  : Prop := Fifo {
  fifo_open : DeferredWormhole._observer_result (self w) = Plain PyNone;
  fifo_data : DeferredWormhole._received_data (self w) = drop (length rs) ps;
  fifo_observers :
    DeferredWormhole._received_observers (self w) = drop (length ps) rs;
  fifo_cells : ∀ i d,
    rs !! i = Some d →
    heap w !! d = Some match ps !! i with
                       | Some plaintext => Called (Plain plaintext)
                       | None => Pending
                       end;
  fifo_NoDup : NoDup rs;
}.

(** The three values that the controller delivers once and that the
    application waits for with a [when_*] method. *)
Inductive category : Type :=
| Code
| Verifier
| Version.

Definition when_call (c : category) : Session.call :=
  match c with
  | Code => Session.When_code
  | Verifier => Session.When_verifier
  | Version => Session.When_version
  end.

Definition got_call (c : category) (value : pyval) : Session.call :=
  match c with
  | Code => Session.Got_code value
  | Verifier => Session.Got_verifier value
  | Version => Session.Got_version value
  end.

Definition category_kind (c : category) : Session.kind :=
  match c with
  | Code => Session.K_code
  | Verifier => Session.K_verifier
  | Version => Session.K_version
  end.

(** The attribute that holds the value of a category. *)
Definition slot (c : category) (s : DeferredWormhole.t) : pyval :=
  match c with
  | Code => DeferredWormhole._code s
  | Verifier => DeferredWormhole._verifier s
  | Version => DeferredWormhole._version s
  end.

(** What the statements about one category look at in a store with no
    terminal result: the value, the observers, the Deferreds and the
    firings. *)
Definition shape (c : category) (w : store DeferredWormhole.t)
    (value : pyval) (obs : list nat) (h : list deferred)
    (f : list (nat * pyobj)) : Prop :=
  slot c (self w) = value ∧
  Session.observers (category_kind c) (self w) = obs ∧
  DeferredWormhole._observer_result (self w) = Plain PyNone ∧
  heap w = h ∧
  fired w = f.

(** The outcomes of calls that hand back the Deferreds [ds]. *)
Definition futures (ds : list nat) : list (outcome Session.answer) :=
  map (λ d, Return (Session.Future d)) ds.

(** ** Sessions of the delegate-style facade *)

Module DelegatedSession.
Import DelegatedWormhole.

Inductive call : Type :=
| Allocate_code (code_length : pyval)
| Input_code (stdio : pyval)
| Set_code (code : pyval)
| Send (plaintext : pyval)
| Derive_key (purpose length : pyval)
| Close
| Debug_set_trace (client_name which : pyval)
| Got_code (code : pyval)
| Got_welcome (welcome : gmap string string)
| Got_key (key : pyval)
| Got_verifier (verifier : pyval)
| Got_version (version : pyval)
| Received (plaintext : pyval)
| Closed (result : pyval).

Section Run.
Context `{!Externals}.

Definition invoke (c : call) : M t Session.answer :=
  match c with
  | Allocate_code n => allocate_code n;; mret Session.Nothing
  | Input_code stdio => input_code stdio;; mret Session.Nothing
  | Set_code code => set_code code;; mret Session.Nothing
  | Send plaintext => send plaintext;; mret Session.Nothing
  | Derive_key purpose length =>
      v ← derive_key purpose length; mret (Session.Value v)
  | Close => close;; mret Session.Nothing
  | Debug_set_trace client_name which =>
      debug_set_trace client_name which;; mret Session.Nothing
  | Got_code code => got_code code;; mret Session.Nothing
  | Got_welcome welcome => got_welcome welcome;; mret Session.Nothing
  | Got_key key => got_key key;; mret Session.Nothing
  | Got_verifier verifier => got_verifier verifier;; mret Session.Nothing
  | Got_version version => got_version version;; mret Session.Nothing
  | Received plaintext => received plaintext;; mret Session.Nothing
  | Closed result => closed result;; mret Session.Nothing
  end.

Fixpoint run (cs : list call) (w : store t)
  : list (outcome Session.answer) * store t :=
  match cs with
  | [] => ([], w)
  | c :: cs' =>
      let '(o, w') := invoke c w in
      let '(os, w'') := run cs' w' in
      (o :: os, w'')
  end.

Definition outcomes (cs : list call) (w : store t)
  : list (outcome Session.answer) :=
  fst (run cs w).

Definition final (cs : list call) (w : store t) : store t :=
  snd (run cs w).

End Run.

(** The method of the delegate that an event from below ends in. *)
Definition notification_of (c : call) : option notification :=
  match c with
  | Got_code code => Some (wormhole_got_code code)
  | Got_verifier verifier => Some (wormhole_got_verifier verifier)
  | Got_version version => Some (wormhole_got_version version)
  | Received plaintext => Some (wormhole_received plaintext)
  | Closed result => Some (wormhole_closed result)
  | _ => None
  end.

(** The call on the controller that a call from above ends in. *)
Definition command_of (c : call) : option boss_call :=
  match c with
  | Allocate_code n => Some (B_allocate_code n)
  | Input_code stdio => Some (B_input_code stdio)
  | Set_code code => Some (B_set_code code)
  | Send plaintext => Some (B_send plaintext)
  | Close => Some B_close
  | Debug_set_trace client_name which => Some (B_set_trace client_name which)
  | _ => None
  end.

(** The key that the controller delivered last, starting from [key]. *)
Fixpoint last_key (cs : list call) (key : pyval) : pyval :=
  match cs with
  | [] => key
  | Got_key k :: cs' => last_key cs' k
  | _ :: cs' => last_key cs' key
  end.

Definition is_Derive_key (c : call) : bool :=
  match c with Derive_key _ _ => true | _ => false end.

End DelegatedSession.

(** ** Vocabulary of the statements about whole sessions *)

(** The call on the controller that a call on the Deferred-style facade
    ends in while no terminal result is set. *)
Definition relayed (c : Session.call) : option boss_call :=
  match c with
  | Session.Allocate_code n => Some (B_allocate_code n)
  | Session.Input_code stdio => Some (B_input_code stdio)
  | Session.Set_code code => Some (B_set_code code)
  | Session.Send plaintext => Some (B_send plaintext)
  | Session.Close => Some B_close
  | Session.Debug_set_trace client_name which =>
      Some (B__set_trace client_name which)
  | _ => None
  end.

(** The same once a truthy terminal result is set: [close] stays in the
    facade. *)
Definition relayed_after (c : Session.call) : option boss_call :=
  match c with
  | Session.Close => None
  | _ => relayed c
  end.

(** The boss's log is untouched. *)
Definition same_boss (w w' : store DeferredWormhole.t) : Prop :=
  boss w' = boss w.

(** The events that the controller delivers, [closed] apart. *)
Definition from_below (c : Session.call) : bool :=
  match c with
  | Session.Got_code _ | Session.Got_welcome _ | Session.Got_key _
  | Session.Got_verifier _ | Session.Got_version _ | Session.Received _ =>
      true
  | _ => false
  end.

(** The value of category [c] that the controller delivered last in a
    session, starting from [value]. *)
Fixpoint last_value (c : category) (cs : list Session.call) (value : pyval)
  : pyval :=
  match cs with
  | [] => value
  | call :: cs' =>
      last_value c cs'
        match c, call with
        | Code, Session.Got_code v => v
        | Verifier, Session.Got_verifier v => v
        | Version, Session.Got_version v => v
        | _, _ => value
        end
  end.

(** The value of category [c] is untouched. *)
Definition same_slot (c : category) (w w' : store DeferredWormhole.t) : Prop :=
  slot c (self w') = slot c (self w).

(** The Deferreds that [closed] fires: the observers of every kind but
    the code. *)
Definition waiting (s : DeferredWormhole.t) : list nat :=
  DeferredWormhole._verifier_observers s
  ++ DeferredWormhole._version_observers s
  ++ DeferredWormhole._received_observers s
  ++ DeferredWormhole._closed_observers s.

(** The four [when_*] calls. *)
Definition is_when (c : Session.call) : bool :=
  match c with
  | Session.When_code | Session.When_verifier | Session.When_version
  | Session.When_received => true
  | _ => false
  end.

(** The payloads that the [received] events of a session delivered, in
    order. *)
Fixpoint received_payloads (cs : list Session.call) : list pyval :=
  match cs with
  | [] => []
  | Session.Received plaintext :: cs' => plaintext :: received_payloads cs'
  | _ :: cs' => received_payloads cs'
  end.

(** The two queues of the exchange are untouched. *)
Definition same_queues (w w' : store DeferredWormhole.t) : Prop :=
  DeferredWormhole._received_data (self w')
  = DeferredWormhole._received_data (self w) ∧
  DeferredWormhole._received_observers (self w')
  = DeferredWormhole._received_observers (self w).

Definition is_exchange (c : Session.call) : bool :=
  match c with
  | Session.Received _ | Session.When_received => true
  | _ => false
  end.

(** ** Vocabulary of the statements about the welcome message *)

(** No character of [s] is a line boundary. *)
Fixpoint one_line (s : string) : bool :=
  match s with
  | EmptyString => true
  | String c s' => negb (is_linebreak c) && one_line s'
  end.

(** The line of [handle_welcome] that shows a motd. *)
Definition is_motd_message (line : string) : bool :=
  String.prefix "Server (at " line.

(** How many motd messages are among the lines printed. *)
Definition motds (printed : list string) : nat :=
  length (filter (λ line, is_motd_message line = true) printed).

(** How many of the welcomes have a [motd]. *)
Definition with_motd (welcomes : list (gmap string string)) : nat :=
  length (filter (λ welcome, is_Some (welcome !! "motd")) welcomes).

(** ** [serialize] and [from_serialized]

    A serialized wormhole is a dict from keys to values.  The controller's
    own [serialize] and [Boss.from_serialized] are defined elsewhere: each
    is given by what it returns or raises. *)

Module Serialized.
Import DelegatedWormhole.

(** [v == 1]; among the values of [pyval] only [1] and [True] are. *)
Definition eq_one (v : pyval) : bool :=
  match v with
  | PyInt n => (n =? 1)%Z
  | PyBool b => b
  | _ => false
  end.

Definition KeyError (key : string) : pyval :=
  PyExc (OtherException "KeyError") (PyText key).

Definition AssertionError : pyval :=
  PyExc (OtherException "AssertionError") PyNone.

(** What [raise NotImplemented] raises: [NotImplemented] is no
    exception. *)
Definition not_an_exception : pyval :=
  PyExc TypeError (PyText "exceptions must derive from BaseException").

(** [d[key]] *)
Definition subscript (d : gmap string pyval) (key : string)
  : outcome pyval :=
  match d !! key with
  | Some v => Return v
  | None => Raise (KeyError key)
  end.


Section Restore.
(** [Boss.from_serialized(w, state, reactor, journal, timing)] returns a
    controller or raises. *)
Variable Boss_from_serialized : pyval → outcome unit.

(** [assert serialized["serialized_wormhole_version"] == 1]; the
    statement is compiled away when [__debug__] is false. *)
Definition assert_version (__debug__ : bool)
    (serialized : gmap string pyval) : outcome unit :=
  if __debug__ then
    match subscript serialized "serialized_wormhole_version" with
    | Return version =>
        if eq_one version then Return () else Raise AssertionError
    | Raise e => Raise e
    end
  else Return ().

(** [from_serialized(serialized, reactor, delegate, ...)]: how the call
    ends, and the facade [w] as the call leaves it, if it was built. *)
Definition from_serialized (__debug__ : bool)
    (serialized : gmap string pyval) (delegate : list notification)
  : outcome (store t) * option (store t) :=
  match assert_version __debug__ serialized with
  | Raise e => (Raise e, None)
  | Return _ =>
      let w := Store (__init__ delegate) [] [] [] in
      let '(o, w') :=
        (state ← lift (subscript serialized "boss");
         lift (Boss_from_serialized state);;
         call_boss B_start;;
         raise not_an_exception) w in
      (o, Some w')
  end.

End Restore.

End Serialized.

(** * Properties *)

(** ** Sample runs *)

Example splitlines_ex :
  splitlines ("ab" +:+ String CR (String LF "c") +:+ String LF (String LF "d")
              +:+ String LF "")
  = ["ab"; "c"; ""; "d"].
Proof. reflexivity. Qed.

Example welcome_ex :
  WelcomeHandler.handle_welcome
    (WelcomeHandler.__init__ "ws://relay" "0.9.1" WelcomeHandler.Callable)
    {[ "current_cli_version" := "0.9.0"; "error" := "go away" ]}
  = (WelcomeHandler.mk "ws://relay" true "0.9.1" WelcomeHandler.Callable,
     [WelcomeHandler.version_warning;
      "Server claims 0.9.0 is current, but ours is 0.9.1"],
     WelcomeHandler.Signalled (PyExc WelcomeError (PyText "go away"))
                              "unwelcome").
Proof. vm_compute. reflexivity. Qed.

(** ** The store *)

Lemma length_fire ds r h : length (fire ds r h) = length h.
Proof.
  revert h. induction ds as [|d ds IH]; intros h; simpl; [done|].
  by rewrite IH, length_insert.
Qed.

Lemma fire_lookup_notin ds r h d :
  d ∉ ds → fire ds r h !! d = h !! d.
Proof.
  revert h. induction ds as [|d' ds IH]; intros h Hd; simpl; [done|].
  apply not_elem_of_cons in Hd as [Hne Hd].
  rewrite IH by done. by apply list_lookup_insert_ne.
Qed.

Lemma fire_lookup_in ds r h d :
  d ∈ ds → d < length h → fire ds r h !! d = Some (Called r).
Proof.
  revert h. induction ds as [|d' ds IH]; intros h Hd Hlt; simpl.
  - by apply elem_of_nil in Hd.
  - destruct (decide (d ∈ ds)) as [Hin|Hnin].
    + apply IH; [done|]. by rewrite length_insert.
    + apply elem_of_cons in Hd as [->|Hd]; [|done].
      rewrite fire_lookup_notin by done.
      by apply list_lookup_insert_eq.
Qed.

Lemma fire_lookup_Called ds r h d r' :
  h !! d = Some (Called r') → d ∉ ds → fire ds r h !! d = Some (Called r').
Proof. intros Hd Hnin. by rewrite fire_lookup_notin. Qed.

(** A loop of [callback]s over distinct pending Deferreds fires them all,
    in the order of the list, and raises nothing. *)
Lemma for_each_callback {S} (ds : list nat) (r : pyobj) (w : store S) :
  NoDup ds →
  (∀ d, d ∈ ds → heap w !! d = Some Pending) →
  for_each ds (λ d, callback d r) w
  = (Return (),
     Store (self w) (fire ds r (heap w))
           (fired w ++ map (λ d, (d, r)) ds) (boss w)).
Proof.
  revert w. induction ds as [|d ds IH]; intros w Hnd Hp; simpl.
  - unfold mret, M_ret. destruct w; simpl. by rewrite app_nil_r.
  - apply NoDup_cons in Hnd as [Hnin Hnd].
    unfold mbind, M_bind, callback at 1.
    rewrite (Hp d) by apply list_elem_of_here.
    rewrite IH; simpl; [|done|].
    + by rewrite <- app_assoc.
    + intros d' Hd'. rewrite list_lookup_insert_ne.
      * apply Hp. by apply list_elem_of_further.
      * intros ->. done.
Qed.

Lemma for_each_errback {S} (ds : list nat) (r : pyobj) (w : store S) :
  NoDup ds →
  (∀ d, d ∈ ds → heap w !! d = Some Pending) →
  for_each ds (λ d, errback d r) w
  = (Return (),
     Store (self w) (fire ds (as_Failure r) (heap w))
           (fired w ++ map (λ d, (d, as_Failure r)) ds) (boss w)).
Proof. apply for_each_callback. Qed.

Import DeferredWormhole Session.

(** ** Frame properties of the store monad *)

Section Keeps.
Context {S : Type} (R : relation (store S)) `{!PreOrder R}.

Lemma keeps_ret {A} (a : A) : keeps R (mret a).
Proof. intros w. simpl. reflexivity. Qed.

Lemma keeps_raise {A} e : keeps R (@raise S A e).
Proof. intros w. simpl. reflexivity. Qed.

Lemma keeps_lift {A} (o : outcome A) : keeps R (lift o).
Proof. intros w. simpl. reflexivity. Qed.

Lemma keeps_get_self : keeps R get_self.
Proof. intros w. simpl. reflexivity. Qed.

Lemma keeps_bind {A B} (m : M S A) (k : A → M S B) :
  keeps R m → (∀ a, keeps R (k a)) → keeps R (m ≫= k).
Proof.
  intros Hm Hk w. unfold mbind, M_bind.
  specialize (Hm w). destruct (m w) as [[a|e] w']; simpl in *; [|done].
  etrans; [done|]. apply Hk.
Qed.

Lemma keeps_for_each ds (body : nat → M S unit) :
  (∀ d, keeps R (body d)) → keeps R (for_each ds body).
Proof.
  intros Hb. induction ds as [|d ds IH]; simpl.
  - apply keeps_ret.
  - apply keeps_bind; [apply Hb|]. intros _. apply IH.
Qed.

End Keeps.

#[global] Instance heap_le_preorder {S} : PreOrder (@heap_le S).
Proof.
  split.
  - intros w. split; [lia|done].
  - intros w1 w2 w3 [Hl1 H1] [Hl2 H2]. split; [lia|]. eauto.
Qed.

Section Heap_le.
Context {S : Type}.

Lemma heap_le_new_Deferred : keeps heap_le (@new_Deferred S).
Proof.
  intros w. split; simpl; [rewrite length_app; lia|].
  intros d x Hd. rewrite lookup_app_l; [done|]. by eapply lookup_lt_Some.
Qed.

Lemma heap_le_callback d r : keeps heap_le (@callback S d r).
Proof.
  intros w. unfold callback.
  destruct (heap w !! d) as [[|r']|] eqn:Hd; simpl; try reflexivity.
  split; simpl; [by rewrite length_insert|].
  intros d' x Hd'. rewrite list_lookup_insert_ne; [done|]. congruence.
Qed.

Lemma heap_le_errback d r : keeps heap_le (@errback S d r).
Proof. apply heap_le_callback. Qed.

Lemma heap_le_modify_self f : keeps heap_le (@modify_self S f).
Proof. intros w. split; simpl; [lia|done]. Qed.

Lemma heap_le_call_boss c : keeps heap_le (@call_boss S c).
Proof. intros w. split; simpl; [lia|done]. Qed.

End Heap_le.

Ltac keeps_step :=
  first
    [ apply keeps_ret; tc_solve
    | apply keeps_raise; tc_solve
    | apply keeps_lift; tc_solve
    | apply keeps_get_self; tc_solve
    | apply keeps_bind; [tc_solve| |intros ?]
    | apply keeps_for_each; [tc_solve|intros ?]
    | match goal with
      | |- keeps _ (if ?b then _ else _) => destruct b
      | |- keeps _ (match ?x with _ => _ end) => destruct x
      end ].

Ltac heap_le_step :=
  first
    [ apply heap_le_new_Deferred | apply heap_le_callback
    | apply heap_le_errback | apply heap_le_modify_self
    | apply heap_le_call_boss | keeps_step ].

Ltac unfold_methods :=
  unfold when_code, when_verifier, when_version, when_received,
    allocate_code, input_code, set_code, send, derive_key, close,
    debug_set_trace, got_code, got_welcome, got_key, got_verifier,
    got_version, received, closed.

#[global] Instance quiet_preorder : PreOrder quiet.
Proof.
  split.
  - intros w. by split_and!.
  - intros w1 w2 w3 (?&?&?) (?&?&?). split_and!; congruence.
Qed.

Lemma quiet_new_Deferred : keeps quiet new_Deferred.
Proof. intros w. by split_and!. Qed.

Lemma quiet_callback d r : keeps quiet (callback d r).
Proof.
  intros w. unfold callback.
  destruct (heap w !! d) as [[|r']|]; simpl; by split_and!.
Qed.

Lemma quiet_errback d r : keeps quiet (errback d r).
Proof. apply quiet_callback. Qed.

Lemma quiet_modify_self f :
  (∀ s, _closed_result (f s) = _closed_result s) →
  (∀ s, _observer_result (f s) = _observer_result s) →
  keeps quiet (modify_self f).
Proof. intros H1 H2 w. split_and!; simpl; auto. Qed.

Lemma quiet_call_boss c : is_B_close c = false → keeps quiet (call_boss c).
Proof.
  intros Hc w. split_and!; simpl; try done.
  unfold boss_closes. simpl. rewrite filter_app, length_app. simpl.
  rewrite filter_cons_False, filter_nil by (rewrite Hc; done). simpl. lia.
Qed.

Ltac quiet_step :=
  first
    [ apply quiet_new_Deferred | apply quiet_callback | apply quiet_errback
    | apply quiet_modify_self; [by intros []|by intros []]
    | apply quiet_call_boss; reflexivity
    | keeps_step ].

(** ** Frame properties of the calls *)

Section Frames.
Context `{!Externals}.

Lemma heap_le_invoke c : keeps heap_le (invoke c).
Proof.
  destruct c; simpl; unfold_methods; unfold succeed, fail;
    repeat heap_le_step.
Qed.

Lemma heap_le_run cs w : heap_le w (final cs w).
Proof.
  revert w. induction cs as [|c cs IH]; intros w; unfold final; simpl.
  - reflexivity.
  - pose proof (heap_le_invoke c w) as Hc.
    destruct (invoke c w) as [o w']. specialize (IH w'). unfold final in IH.
    destruct (run cs w') as [os w'']. simpl in *. by etrans.
Qed.

(** Every call but [close] and [closed] leaves the terminal results and
    the controller's [close] alone. *)
Lemma quiet_invoke c :
  is_Closed c = false → is_Close c = false → keeps quiet (invoke c).
Proof.
  destruct c; simpl; try done; intros _ _; unfold_methods;
    unfold succeed, fail; repeat quiet_step.
Qed.

End Frames.

(** ** Evaluation of the store primitives *)

Lemma succeed_eq {S} (r : pyobj) (w : store S) :
  succeed r w
  = (Return (length (heap w)),
     Store (self w) (heap w ++ [Called r])
           (fired w ++ [(length (heap w), r)]) (boss w)).
Proof.
  unfold succeed, mbind, M_bind, new_Deferred, callback, mret, M_ret. simpl.
  rewrite list_lookup_middle by done.
  replace (length (heap w)) with (length (heap w) + 0) at 2 by lia.
  by rewrite insert_app_r.
Qed.

Lemma fail_eq {S} (r : pyobj) (w : store S) :
  fail r w
  = (Return (length (heap w)),
     Store (self w) (heap w ++ [Called (as_Failure r)])
           (fired w ++ [(length (heap w), as_Failure r)]) (boss w)).
Proof. apply succeed_eq. Qed.

Ltac exec :=
  unfold mbind, M_bind, mret, M_ret, get_self, modify_self, call_boss,
    new_Deferred, raise, lift; simpl.

(** ** The invariant of a session before [closed] *)

Lemma track_iss_ext w iss iss' :
  (∀ k d, d ∈ iss' k ↔ d ∈ iss k) → track w iss → track w iss'.
Proof.
  intros Heq [H1 H2 H3 H4 H5 H6 H7]. split; try done.
  - intros k d. rewrite Heq. apply H3.
  - intros k d. rewrite Heq. apply H5.
  - intros k k' d. rewrite !Heq. apply H6.
  - intros d. rewrite Heq. apply H7.
Qed.

Lemma track_same w iss w' :
  track w iss →
  heap w' = heap w →
  _observer_result (self w') = Plain PyNone →
  _closed_result (self w') = Plain PyNone →
  (∀ k, observers k (self w') = observers k (self w)) →
  track w' iss.
Proof.
  intros [H1 H2 H3 H4 H5 H6 H7] Hh Ho Hc Hobs. split; try done.
  - intros k d. rewrite Hobs, Hh. apply H3.
  - intros k. rewrite Hobs. apply H4.
  - intros k d. rewrite Hh. apply H5.
  - intros d. rewrite Hh. apply H7.
Qed.

(** A call of kind [k0] that hands out a new Deferred: registered when it
    is pending, nowhere when it is born fired. *)
Lemma track_alloc k0 cell w iss w' :
  track w iss →
  (k0 = K_close → cell = Pending) →
  heap w' = heap w ++ [cell] →
  _observer_result (self w') = Plain PyNone →
  _closed_result (self w') = Plain PyNone →
  (∀ k, observers k (self w')
        = observers k (self w)
          ++ (if decide (k = k0) then
                match cell with Pending => [length (heap w)] | Called _ => [] end
              else [])) →
  track w' (λ k, iss k ++ if decide (k = k0) then [length (heap w)] else []).
Proof.
  intros [H1 H2 H3 H4 H5 H6 H7] Hcell Hh Ho Hc Hobs. split; try done.
  - intros k d. rewrite Hobs, Hh, !elem_of_app. split.
    + intros [Hd|Hd].
      * apply H3 in Hd as [Hd Hp]. split; [by left|].
        rewrite lookup_app_l; [done|]. by eapply lookup_lt_Some.
      * case_decide; [|by apply elem_of_nil in Hd].
        destruct cell; [|by apply elem_of_nil in Hd].
        apply list_elem_of_singleton in Hd as ->. split.
        -- right. apply list_elem_of_singleton. done.
        -- by rewrite list_lookup_middle.
    + intros [[Hd|Hd] Hp].
      * left. apply H3. split; [done|].
        rewrite lookup_app_l in Hp; [done|]. by eapply H5.
      * right. case_decide; [|by apply elem_of_nil in Hd].
        apply list_elem_of_singleton in Hd as ->.
        rewrite list_lookup_middle in Hp by done. injection Hp as ->.
        apply list_elem_of_singleton. done.
  - intros k. rewrite Hobs. apply NoDup_app. split_and!; [apply H4| |].
    + intros d Hd Hd'. apply H3 in Hd as [Hd _]. apply H5 in Hd.
      case_decide; [|by apply elem_of_nil in Hd'].
      destruct cell; [|by apply elem_of_nil in Hd'].
      apply list_elem_of_singleton in Hd'. lia.
    + case_decide; [destruct cell|]; try apply NoDup_nil_2.
      apply NoDup_singleton.
  - intros k d. rewrite Hh, length_app, elem_of_app. simpl. intros [Hd|Hd].
    + apply H5 in Hd. lia.
    + case_decide; [|by apply elem_of_nil in Hd].
      apply list_elem_of_singleton in Hd. lia.
  - intros k k' d. rewrite !elem_of_app. intros [Hd|Hd] [Hd'|Hd'].
    + by eapply H6.
    + case_decide; [|by apply elem_of_nil in Hd'].
      apply list_elem_of_singleton in Hd'. apply H5 in Hd. lia.
    + case_decide; [|by apply elem_of_nil in Hd].
      apply list_elem_of_singleton in Hd. apply H5 in Hd'. lia.
    + repeat case_decide; try (by apply elem_of_nil in Hd);
        try (by apply elem_of_nil in Hd'). congruence.
  - intros d. rewrite Hh, elem_of_app. intros [Hd|Hd].
    + rewrite lookup_app_l; [by apply H7|]. by eapply H5.
    + case_decide as Hk; [|by apply elem_of_nil in Hd].
      apply list_elem_of_singleton in Hd as ->.
      rewrite list_lookup_middle by done. by rewrite Hcell.
Qed.

(** Firing the first observers [ds] of kind [k0] and dropping them from the
    list. *)
Lemma track_fire k0 ds rest r w iss w' :
  track w iss →
  k0 ≠ K_close →
  observers k0 (self w) = ds ++ rest →
  heap w' = fire ds r (heap w) →
  _observer_result (self w') = Plain PyNone →
  _closed_result (self w') = Plain PyNone →
  (∀ k, observers k (self w')
        = if decide (k = k0) then rest else observers k (self w)) →
  track w' iss.
Proof.
  intros [H1 H2 H3 H4 H5 H6 H7] Hne Hk0 Hh Ho Hc Hobs. split; try done.
  - pose proof (H4 k0) as Hnd. rewrite Hk0 in Hnd.
    apply NoDup_app in Hnd as (_ & Hdisj & _).
    intros k d. rewrite Hobs, Hh. case_decide as Hk.
    + subst k. split.
      * intros Hd. assert (d ∈ observers k0 (self w)) as Hd'.
        { rewrite Hk0. apply elem_of_app. by right. }
        apply H3 in Hd' as [Hi Hp]. split; [done|].
        rewrite fire_lookup_notin; [done|]. intros Hin. by eapply Hdisj.
      * intros [Hi Hp]. destruct (decide (d ∈ ds)) as [Hin|Hnin].
        -- rewrite fire_lookup_in in Hp; [done|done|by eapply H5].
        -- rewrite fire_lookup_notin in Hp by done.
           assert (d ∈ observers k0 (self w)) as Hd' by (apply H3; done).
           rewrite Hk0 in Hd'. apply elem_of_app in Hd' as [?|?]; done.
    + assert (d ∈ iss k → d ∉ ds) as Hnin.
      { intros Hi Hin. apply Hk. eapply H6; [done|].
        apply (H3 k0 d). rewrite Hk0. apply elem_of_app. by left. }
      split.
      * intros Hd. apply H3 in Hd as [Hi Hp]. split; [done|].
        rewrite fire_lookup_notin; auto.
      * intros [Hi Hp]. apply H3. split; [done|].
        rewrite fire_lookup_notin in Hp; auto.
  - intros k. rewrite Hobs. case_decide; [|apply H4].
    pose proof (H4 k0) as Hnd. rewrite Hk0 in Hnd.
    by apply NoDup_app in Hnd as (_ & _ & ?).
  - intros k d. rewrite Hh, length_fire. apply H5.
  - intros d Hd. rewrite Hh, fire_lookup_notin; [by apply H7|].
    intros Hin. apply Hne. eapply H6; [|done].
    apply (H3 k0 d). rewrite Hk0. apply elem_of_app. by left.
Qed.

Lemma issued_by_None k c o : kind_of c = None → issued_by k c o = [].
Proof.
  intros Hc. unfold issued_by. destruct o as [[|d|]|]; try done.
  rewrite Hc. by case_decide.
Qed.

Lemma elem_of_issued_by k c d d' :
  d' ∈ issued_by k c (Return (Future d)) ↔ kind_of c = Some k ∧ d' = d.
Proof.
  unfold issued_by. case_decide.
  - rewrite list_elem_of_singleton. intuition.
  - rewrite elem_of_nil. intuition.
Qed.

Section Tracking.
Context `{!Externals}.

Ltac track_obs :=
  intros []; simpl; try case_decide; try done; by rewrite ?app_nil_r.

Ltac track_issue k0 cell :=
  match goal with
  | Ht : track ?w ?iss |- _ =>
      eapply track_iss_ext; [|eapply (track_alloc k0 cell w iss _ Ht)];
      [ intros ??; simpl; rewrite !elem_of_app; repeat case_decide;
        rewrite ?list_elem_of_singleton, ?elem_of_nil; intuition congruence
      | try done | simpl; reflexivity | done | done | track_obs ]
  end.

Ltac track_keep :=
  match goal with
  | Ht : track ?w ?iss |- _ =>
      eapply track_iss_ext; [|eapply (track_same w iss _ Ht)];
      [ intros ??; simpl; rewrite ?elem_of_app, ?elem_of_nil; intuition
      | reflexivity | done | done | by intros [] ]
  end.

Ltac track_fired k0 ds rest r :=
  match goal with
  | Ht : track ?w ?iss |- _ =>
      eapply track_iss_ext; [|eapply (track_fire k0 ds rest r w iss _ Ht)];
      [ intros ??; simpl; rewrite ?elem_of_app, ?elem_of_nil; intuition
      | done | simpl; by rewrite ?app_nil_r | reflexivity | done | done
      | by intros [] ]
  end.

Lemma track_pending w iss k d :
  track w iss → d ∈ observers k (self w) → heap w !! d = Some Pending.
Proof. intros Ht Hd. by apply (track_observers _ _ Ht) in Hd as [_ ?]. Qed.

Lemma track_step c w iss :
  track w iss → is_Closed c = false →
  track (snd (invoke c w)) (λ k, iss k ++ issued_by k c (fst (invoke c w))).
Proof.
  intros Ht Hc.
  pose proof (track_observer_result _ _ Ht) as Ho.
  pose proof (track_closed_result _ _ Ht) as Hr.
  destruct c; try done; simpl; unfold_methods.
  - (* when_code *)
    exec. rewrite Ho. simpl. destruct (is_none (_code (self w))); simpl.
    + track_issue K_code Pending.
    + rewrite succeed_eq. simpl.
      track_issue K_code (Called (Plain (_code (self w)))).
  - (* when_verifier *)
    exec. rewrite Ho. simpl. destruct (is_none (_verifier (self w))); simpl.
    + track_issue K_verifier Pending.
    + rewrite succeed_eq. simpl.
      track_issue K_verifier (Called (Plain (_verifier (self w)))).
  - (* when_version *)
    exec. rewrite Ho. simpl. destruct (is_none (_version (self w))); simpl.
    + track_issue K_version Pending.
    + rewrite succeed_eq. simpl.
      track_issue K_version (Called (Plain (_version (self w)))).
  - (* when_received *)
    exec. rewrite Ho. simpl.
    destruct (_received_data (self w)) as [|plaintext rest]; simpl.
    + track_issue K_received Pending.
    + rewrite succeed_eq. simpl.
      track_issue K_received (Called (Plain plaintext)).
  - exec. track_keep.
  - exec. track_keep.
  - exec. track_keep.
  - exec. track_keep.
  - (* derive_key *)
    destruct purpose; exec; try track_keep.
    destruct (truthy (_key (self w))); simpl; [|track_keep].
    destruct (key_derive_key _ _ _); simpl; track_keep.
  - (* close *)
    exec. rewrite Hr. simpl. track_issue K_close Pending.
  - exec. track_keep.
  - (* got_code *)
    exec. rewrite for_each_callback; simpl;
      [|apply (track_NoDup _ _ Ht K_code)
       |intros d Hd; by apply (track_pending _ _ K_code _ Ht)].
    track_fired K_code (_code_observers (self w)) (@nil nat) (Plain code).
  - exec. track_keep.
  - exec. track_keep.
  - (* got_verifier *)
    exec. rewrite for_each_callback; simpl;
      [|apply (track_NoDup _ _ Ht K_verifier)
       |intros d Hd; by apply (track_pending _ _ K_verifier _ Ht)].
    track_fired K_verifier (_verifier_observers (self w)) (@nil nat)
                (Plain verifier).
  - (* got_version *)
    exec. rewrite for_each_callback; simpl;
      [|apply (track_NoDup _ _ Ht K_version)
       |intros d Hd; by apply (track_pending _ _ K_version _ Ht)].
    track_fired K_version (_version_observers (self w)) (@nil nat)
                (Plain version).
  - (* received *)
    exec. destruct (_received_observers (self w)) as [|d rest] eqn:Hobs; simpl.
    + track_keep.
    + unfold callback. simpl.
      rewrite (track_pending _ _ K_received d Ht)
        by (simpl; rewrite Hobs; apply list_elem_of_here).
      simpl. track_fired K_received [d] rest (Plain plaintext).
Qed.

End Tracking.

(** ** Sessions *)

Section Sessions.
Context `{!Externals}.

Lemma run_cons c cs w :
  run (c :: cs) w
  = (fst (invoke c w) :: outcomes cs (snd (invoke c w)),
     final cs (snd (invoke c w))).
Proof.
  unfold outcomes, final. simpl.
  destruct (invoke c w) as [o w1]. simpl. by destruct (run cs w1).
Qed.

Lemma outcomes_cons c cs w :
  outcomes (c :: cs) w = fst (invoke c w) :: outcomes cs (snd (invoke c w)).
Proof. unfold outcomes at 1. by rewrite run_cons. Qed.

Lemma final_cons c cs w :
  final (c :: cs) w = final cs (snd (invoke c w)).
Proof. unfold final at 1. by rewrite run_cons. Qed.

Lemma final_app cs1 cs2 w :
  final (cs1 ++ cs2) w = final cs2 (final cs1 w).
Proof.
  revert w. induction cs1 as [|c cs1 IH]; intros w; simpl; [done|].
  by rewrite !final_cons, IH.
Qed.

Lemma outcomes_app cs1 cs2 w :
  outcomes (cs1 ++ cs2) w = outcomes cs1 w ++ outcomes cs2 (final cs1 w).
Proof.
  revert w. induction cs1 as [|c cs1 IH]; intros w; simpl; [done|].
  by rewrite !outcomes_cons, final_cons, IH.
Qed.

Lemma length_outcomes cs w : length (outcomes cs w) = length cs.
Proof.
  revert w. induction cs as [|c cs IH]; intros w; [done|].
  rewrite outcomes_cons. simpl. by rewrite IH.
Qed.

Lemma issued_app k cs1 cs2 os1 os2 :
  length cs1 = length os1 →
  issued k (cs1 ++ cs2) (os1 ++ os2) = issued k cs1 os1 ++ issued k cs2 os2.
Proof.
  revert os1. induction cs1 as [|c cs1 IH]; intros [|o os1] Hl; try done.
  simpl in *. rewrite IH by lia. by rewrite app_assoc.
Qed.

Lemma calm_app cs1 cs2 : calm (cs1 ++ cs2) = calm cs1 && calm cs2.
Proof. apply forallb_app. Qed.

Lemma track_fresh : track fresh (λ _, []).
Proof.
  split; try done.
  - intros k d. destruct k; simpl; rewrite elem_of_nil; intuition.
  - intros []; apply NoDup_nil_2.
  - intros k d Hd. by apply elem_of_nil in Hd.
  - intros k k' d Hd. by apply elem_of_nil in Hd.
  - intros d Hd. by apply elem_of_nil in Hd.
Qed.

Lemma track_run cs w iss :
  track w iss → calm cs = true →
  track (final cs w) (λ k, iss k ++ issued k cs (outcomes cs w)).
Proof.
  revert w iss. induction cs as [|c cs IH]; intros w iss Ht Hc.
  - eapply track_iss_ext; [|exact Ht]. intros k d. simpl.
    by rewrite app_nil_r.
  - simpl in Hc. apply andb_true_iff in Hc as [Hc Hcs].
    apply negb_true_iff in Hc.
    rewrite final_cons. eapply track_iss_ext;
      [|apply IH; [apply (track_step c w iss Ht Hc)|done]].
    intros k d. rewrite outcomes_cons. simpl. by rewrite app_assoc.
Qed.

(** The session [cs], run from a fresh facade, with [closed] not firing:
    the invariant holds of the Deferreds handed out. *)
Lemma track_session cs :
  calm cs = true →
  track (final cs fresh) (λ k, issued k cs (outcomes cs fresh)).
Proof.
  intros Hc. eapply track_iss_ext; [|apply (track_run cs _ _ track_fresh Hc)].
  done.
Qed.

Lemma track_disjoint w iss k k' d :
  track w iss →
  d ∈ observers k (self w) → d ∈ observers k' (self w) → k = k'.
Proof.
  intros Ht Hd Hd'.
  apply (track_observers _ _ Ht) in Hd as [Hd _].
  apply (track_observers _ _ Ht) in Hd' as [Hd' _].
  by eapply (track_kind _ _ Ht).
Qed.

(** What [closed(result)] does to a session in which it had not fired. *)
Lemma closed_eq result w iss :
  track w iss →
  closed result w
  = (Return (),
     Store (set__observer_result (sticky result)
              (set__closed_result (terminal result) (self w)))
           (fire (_closed_observers (self w)) (terminal result)
              (fire (_received_observers (self w)) (as_Failure (sticky result))
                 (fire (_version_observers (self w)) (as_Failure (sticky result))
                    (fire (_verifier_observers (self w))
                       (as_Failure (sticky result)) (heap w)))))
           (fired w
              ++ map (λ d, (d, as_Failure (sticky result)))
                     (_verifier_observers (self w))
              ++ map (λ d, (d, as_Failure (sticky result)))
                     (_version_observers (self w))
              ++ map (λ d, (d, as_Failure (sticky result)))
                     (_received_observers (self w))
              ++ map (λ d, (d, terminal result)) (_closed_observers (self w)))
           (boss w)).
Proof.
  intros Ht.
  assert (∀ k d, d ∈ observers k (self w) → heap w !! d = Some Pending) as Hp.
  { intros k d. by apply track_pending with iss. }
  assert (∀ k k' d, k ≠ k' → d ∈ observers k (self w) →
                    d ∉ observers k' (self w)) as Hdis.
  { intros k k' d Hne Hd Hd'. apply Hne. by eapply track_disjoint. }
  pose proof (track_NoDup _ _ Ht) as Hnd.
  unfold closed, sticky, terminal.
  destruct (is_exception result); exec.
  all: rewrite for_each_errback; simpl;
    [|apply (Hnd K_verifier)|apply (Hp K_verifier)].
  all: rewrite for_each_errback; simpl;
    [|apply (Hnd K_version)
     |intros d Hd; rewrite fire_lookup_notin;
      [by apply (Hp K_version)|by apply (Hdis K_version K_verifier)]].
  all: rewrite for_each_errback; simpl;
    [|apply (Hnd K_received)
     |intros d Hd; rewrite !fire_lookup_notin;
      [by apply (Hp K_received)|by apply (Hdis K_received K_verifier)
      |by apply (Hdis K_received K_version)]].
  all: rewrite for_each_callback; simpl;
    [|apply (Hnd K_close)
     |intros d Hd; rewrite !fire_lookup_notin;
      [by apply (Hp K_close)|by apply (Hdis K_close K_verifier)
      |by apply (Hdis K_close K_version)|by apply (Hdis K_close K_received)]].
  all: by rewrite <- !app_assoc.
Qed.


Lemma closed_fans_out result w iss k d :
  track w iss → d ∈ iss k → heap w !! d = Some Pending →
  heap (snd (closed result w)) !! d
  = Some match k with
         | K_code => Pending
         | K_close => Called (terminal result)
         | _ => Called (as_Failure (sticky result))
         end.
Proof.
  intros Ht Hi Hp.
  assert (d ∈ observers k (self w)) as Hd by (by apply (track_observers _ _ Ht)).
  assert (∀ k', k ≠ k' → d ∉ observers k' (self w)) as Hdis.
  { intros k' Hne Hd'. apply Hne. by eapply track_disjoint. }
  pose proof (track_bound _ _ Ht _ _ Hi) as Hlt.
  rewrite (closed_eq _ _ _ Ht). simpl.
  destruct k; simpl in Hd.
  - rewrite !fire_lookup_notin; [done|..].
    + by apply (Hdis K_verifier).
    + by apply (Hdis K_version).
    + by apply (Hdis K_received).
    + by apply (Hdis K_close).
  - rewrite 3!fire_lookup_notin; [by apply fire_lookup_in|..].
    + by apply (Hdis K_version).
    + by apply (Hdis K_received).
    + by apply (Hdis K_close).
  - rewrite 2!fire_lookup_notin;
      [apply fire_lookup_in; [done|by rewrite length_fire]|..].
    + by apply (Hdis K_received).
    + by apply (Hdis K_close).
  - rewrite fire_lookup_notin;
      [apply fire_lookup_in; [done|by rewrite !length_fire]|].
    by apply (Hdis K_close).
  - apply fire_lookup_in; [done|by rewrite !length_fire].
Qed.

End Sessions.

#[global] Instance settled_preorder : PreOrder settled.
Proof.
  split.
  - intros w. by split.
  - intros w1 w2 w3 [??] [??]. split; congruence.
Qed.

Lemma settled_new_Deferred : keeps settled new_Deferred.
Proof. intros w. by split. Qed.

Lemma settled_callback d r : keeps settled (callback d r).
Proof.
  intros w. unfold callback.
  destruct (heap w !! d) as [[|r']|]; simpl; by split.
Qed.

Lemma settled_errback d r : keeps settled (errback d r).
Proof. apply settled_callback. Qed.

Lemma settled_modify_self f :
  (∀ s, _closed_result (f s) = _closed_result s) →
  (∀ s, _observer_result (f s) = _observer_result s) →
  keeps settled (modify_self f).
Proof. intros H1 H2 w. split; simpl; auto. Qed.

Lemma settled_call_boss c : keeps settled (call_boss c).
Proof. intros w. by split. Qed.

Ltac settled_step :=
  first
    [ apply settled_new_Deferred | apply settled_callback
    | apply settled_errback
    | apply settled_modify_self; [by intros []|by intros []]
    | apply settled_call_boss
    | keeps_step ].

Section After.
Context `{!Externals}.

(** No call but [closed] changes the terminal results. *)
Lemma settled_invoke c : is_Closed c = false → keeps settled (invoke c).
Proof.
  destruct c; simpl; try done; intros _; unfold_methods;
    unfold succeed, fail; repeat settled_step.
Qed.

Lemma settled_run cs w : calm cs = true → settled w (final cs w).
Proof.
  revert w. induction cs as [|c cs IH]; intros w Hc; [reflexivity|].
  simpl in Hc. apply andb_true_iff in Hc as [Hc Hcs].
  apply negb_true_iff in Hc. rewrite final_cons.
  etrans; [by apply settled_invoke|by apply IH].
Qed.

(** Every [when_*] and every [close] hands back a Deferred. *)
Lemma invoke_issues c k w :
  kind_of c = Some k → ∃ d, fst (invoke c w) = Return (Future d).
Proof.
  destruct c; try done; intros _; simpl; unfold_methods; exec.
  1-4: destruct (negb (obj_is_none _)); [rewrite fail_eq; simpl; eauto|].
  - destruct (negb (is_none _)); [rewrite succeed_eq|]; simpl; eauto.
  - destruct (negb (is_none _)); [rewrite succeed_eq|]; simpl; eauto.
  - destruct (negb (is_none _)); [rewrite succeed_eq|]; simpl; eauto.
  - destruct (_received_data _); [|rewrite succeed_eq]; simpl; eauto.
  - destruct (obj_truthy _); [rewrite succeed_eq|]; simpl; eauto.
Qed.

(** Once [self._observer_result] is set, every [when_*] hands back a
    Deferred that has failed with it. *)
Lemma when_after_closed c k w :
  kind_of c = Some k → k ≠ K_close →
  obj_is_none (_observer_result (self w)) = false →
  invoke c w
  = (Return (Future (length (heap w))),
     Store (self w)
           (heap w ++ [Called (as_Failure (_observer_result (self w)))])
           (fired w
              ++ [(length (heap w), as_Failure (_observer_result (self w)))])
           (boss w)).
Proof.
  intros Hk Hne Ho.
  destruct c; try done; simpl in Hk; try (by injection Hk as <-);
    simpl; unfold_methods; exec; rewrite Ho; simpl; by rewrite fail_eq.
Qed.

(** Once [self._closed_result] is truthy, [close] hands back a Deferred
    that has fired with it and leaves the controller alone. *)
Lemma close_after_closed w :
  obj_truthy (_closed_result (self w)) = true →
  invoke Close w
  = (Return (Future (length (heap w))),
     Store (self w) (heap w ++ [Called (_closed_result (self w))])
           (fired w ++ [(length (heap w), _closed_result (self w))])
           (boss w)).
Proof.
  intros Hc. simpl. unfold close. exec. rewrite Hc. by rewrite succeed_eq.
Qed.

(** While the result held for [close] is falsy, [close] registers a new
    Deferred and calls the controller. *)
Lemma close_without_result w :
  obj_truthy (_closed_result (self w)) = false →
  invoke Close w
  = (Return (Future (length (heap w))),
     Store (set__closed_observers
              (_closed_observers (self w) ++ [length (heap w)]) (self w))
           (heap w ++ [Pending]) (fired w) (boss w ++ [B_close])).
Proof. intros Hc. simpl. unfold close. exec. by rewrite Hc. Qed.

Lemma quiet_invoke_after c w :
  is_Closed c = false →
  obj_truthy (_closed_result (self w)) = true →
  quiet w (snd (invoke c w)).
Proof.
  intros Hc Ht. destruct (is_Close c) eqn:Hcl.
  - destruct c; try done. rewrite close_after_closed by done. by split_and!.
  - by apply quiet_invoke.
Qed.

Lemma quiet_run_after cs w :
  calm cs = true →
  obj_truthy (_closed_result (self w)) = true →
  quiet w (final cs w).
Proof.
  revert w. induction cs as [|c cs IH]; intros w Hc Ht; [reflexivity|].
  simpl in Hc. apply andb_true_iff in Hc as [Hc Hcs].
  apply negb_true_iff in Hc. rewrite final_cons.
  pose proof (quiet_invoke_after c w Hc Ht) as Hq.
  etrans; [done|]. apply IH; [done|].
  destruct Hq as (-> & _ & _). done.
Qed.

Lemma issued_by_elem k c w d :
  d ∈ issued_by k c (fst (invoke c w)) →
  kind_of c = Some k ∧ fst (invoke c w) = Return (Future d).
Proof.
  unfold issued_by. destruct (fst (invoke c w)) as [[|d'|]|];
    try (by intros ?%elem_of_nil).
  case_decide; [|by intros ?%elem_of_nil].
  by intros ->%list_elem_of_singleton.
Qed.

Lemma issued_whens_after cs w k d :
  calm cs = true → k ≠ K_close →
  obj_is_none (_observer_result (self w)) = false →
  d ∈ issued k cs (outcomes cs w) →
  heap (final cs w) !! d
  = Some (Called (as_Failure (_observer_result (self w)))).
Proof.
  revert w. induction cs as [|c cs IH]; intros w Hc Hk Ho.
  - by intros ?%elem_of_nil.
  - simpl in Hc. apply andb_true_iff in Hc as [Hc Hcs].
    apply negb_true_iff in Hc.
    rewrite outcomes_cons, final_cons. simpl. rewrite elem_of_app.
    destruct (settled_invoke c Hc w) as [_ Hs].
    intros [Hd|Hd].
    + apply issued_by_elem in Hd as [Hkc Hd].
      apply (heap_le_run cs).
      rewrite (when_after_closed c k w) in Hd |- * by done.
      simpl in *. injection Hd as <-. by rewrite list_lookup_middle.
    + rewrite <- Hs. apply IH; [done|done|by rewrite Hs|done].
Qed.

Lemma issued_closes_after cs w d :
  calm cs = true →
  obj_truthy (_closed_result (self w)) = true →
  d ∈ issued K_close cs (outcomes cs w) →
  heap (final cs w) !! d = Some (Called (_closed_result (self w))).
Proof.
  revert w. induction cs as [|c cs IH]; intros w Hc Ht.
  - by intros ?%elem_of_nil.
  - simpl in Hc. apply andb_true_iff in Hc as [Hc Hcs].
    apply negb_true_iff in Hc.
    rewrite outcomes_cons, final_cons. simpl. rewrite elem_of_app.
    destruct (settled_invoke c Hc w) as [Hs _].
    intros [Hd|Hd].
    + apply issued_by_elem in Hd as [Hkc Hd].
      apply (heap_le_run cs).
      destruct c; try done.
      rewrite close_after_closed in Hd |- * by done.
      simpl in *. injection Hd as <-. by rewrite list_lookup_middle.
    + rewrite <- Hs. apply IH; [done|by rewrite Hs|done].
Qed.

(** Before [closed], every [close] calls the controller's [close], and
    nothing else does. *)
Lemma boss_closes_step c w iss :
  track w iss → is_Closed c = false →
  boss_closes (snd (invoke c w))
  = boss_closes w + (if is_Close c then 1 else 0).
Proof.
  intros Ht Hc. destruct (is_Close c) eqn:Hcl.
  - destruct c; try done. simpl. unfold close. exec.
    rewrite (track_closed_result _ _ Ht). simpl.
    unfold boss_closes. simpl. rewrite filter_app, length_app. done.
  - destruct (quiet_invoke c Hc Hcl w) as (_ & _ & ->). lia.
Qed.

Lemma closes_cons c cs :
  closes (c :: cs) = (if is_Close c then 1 else 0) + closes cs.
Proof.
  unfold closes. rewrite filter_cons. destruct (is_Close c); by case_decide.
Qed.

Lemma boss_closes_run cs w iss :
  track w iss → calm cs = true →
  boss_closes (final cs w) = boss_closes w + closes cs.
Proof.
  revert w iss. induction cs as [|c cs IH]; intros w iss Ht Hc.
  - unfold closes, final. simpl. lia.
  - simpl in Hc. apply andb_true_iff in Hc as [Hc Hcs].
    apply negb_true_iff in Hc.
    rewrite final_cons, closes_cons.
    rewrite (IH _ _ (track_step c w iss Ht Hc) Hcs).
    rewrite (boss_closes_step c w iss Ht Hc). lia.
Qed.

End After.

Section Closing.
Context `{!Externals}.

Lemma final_closed pre result w :
  final (pre ++ [Closed result]) w = snd (closed result (final pre w)).
Proof.
  rewrite final_app. unfold final at 1. simpl. unfold mbind, M_bind.
  by destruct (closed result (final pre w)) as [[[]|e] w'].
Qed.

Lemma final_closed_cons pre result post w :
  final (pre ++ Closed result :: post) w
  = final post (final (pre ++ [Closed result]) w).
Proof.
  rewrite (final_app pre (_ :: _)), final_cons, (final_app pre [_]).
  by rewrite final_cons.
Qed.

Lemma closed_results result w iss :
  track w iss →
  _closed_result (self (snd (closed result w))) = terminal result ∧
  _observer_result (self (snd (closed result w))) = sticky result ∧
  boss (snd (closed result w)) = boss w.
Proof. intros Ht. by rewrite (closed_eq _ _ _ Ht). Qed.

Lemma sticky_not_None result : obj_is_none (sticky result) = false.
Proof. unfold sticky. by destruct (is_exception result). Qed.

Lemma issued_closes_length cs w :
  length (issued K_close cs (outcomes cs w)) = closes cs.
Proof.
  revert w. induction cs as [|c cs IH]; intros w; [reflexivity|].
  rewrite outcomes_cons, closes_cons. simpl. rewrite length_app, IH.
  f_equal. unfold issued_by.
  destruct (kind_of c) as [k|] eqn:Hk.
  - destruct (invoke_issues c k w Hk) as [d ->].
    destruct c; try done; simpl in *; try case_decide; try done;
      congruence.
  - destruct (fst (invoke c w)) as [[| |]|]; destruct c; try done;
      simpl in *; try case_decide; try done; congruence.
Qed.

(** C1. When [closed] fires with an exception [e] in a session [pre] (not
    closed before) that goes on with [post]: a pending Deferred of
    [when_code] is left pending, where the specification has it fail with
    [e]; the pending Deferreds of [when_verifier], [when_version] and
    [when_received] fail with [e], and so does every Deferred that a later
    [when_*] hands back. *)
Theorem closed_error_fan_out pre post cls arg :
  calm pre = true → calm post = true →
  let e := PyExc cls arg in
  let w := final pre fresh in
  let w' := final (pre ++ [Closed e]) fresh in
  let w'' := final (pre ++ Closed e :: post) fresh in
  (∀ d, d ∈ issued K_code pre (outcomes pre fresh) →
        heap w !! d = Some Pending → heap w' !! d = Some Pending) ∧
  (∀ k d, k ∈ [K_verifier; K_version; K_received] →
          d ∈ issued k pre (outcomes pre fresh) →
          heap w !! d = Some Pending →
          heap w' !! d = Some (Called (Failure e))) ∧
  (∀ k d, k ≠ K_close →
          d ∈ issued k post (outcomes post w') →
          heap w'' !! d = Some (Called (Failure e))).
Proof.
  intros Hpre Hpost e w w' w''.
  pose proof (track_session pre Hpre) as Ht. fold w in Ht.
  assert (w' = snd (closed e w)) as Hw' by apply final_closed.
  assert (w'' = final post w') as Hw'' by apply final_closed_cons.
  destruct (closed_results e w _ Ht) as (Hc & Ho & Hb).
  rewrite <- Hw' in Hc, Ho, Hb.
  split_and!.
  - intros d Hd Hp. rewrite Hw'.
    by rewrite (closed_fans_out e w _ K_code d Ht Hd Hp).
  - intros k d Hk Hd Hp. rewrite Hw'.
    rewrite (closed_fans_out e w _ k d Ht Hd Hp).
    repeat (apply elem_of_cons in Hk as [->|Hk]; [done|]).
    by apply elem_of_nil in Hk.
  - intros k d Hk Hd. rewrite Hw''.
    rewrite (issued_whens_after post w' k d Hpost Hk); [by rewrite Ho| |done].
    rewrite Ho. apply sticky_not_None.
Qed.

(** C3, as amended. In a session where [closed(result)] fires once, after
    [pre] and before [post]: every [close] hands back a Deferred; those of
    the calls made before [closed] all end with the terminal value, and
    the controller's [close] has then been called once for each of these
    calls; when the terminal value is truthy, the Deferreds of the calls
    made after [closed] hold the same value and the controller's [close]
    is not called again. *)
Theorem close_twice pre post result :
  calm pre = true → calm post = true →
  let cs := pre ++ Closed result :: post in
  let w' := final (pre ++ [Closed result]) fresh in
  let w'' := final cs fresh in
  length (issued K_close cs (outcomes cs fresh)) = closes pre + closes post ∧
  (∀ d, d ∈ issued K_close pre (outcomes pre fresh) →
        heap w'' !! d = Some (Called (terminal result))) ∧
  boss_closes w' = closes pre ∧
  (obj_truthy (terminal result) = true →
     (∀ d, d ∈ issued K_close post (outcomes post w') →
           heap w'' !! d = Some (Called (terminal result))) ∧
     boss_closes w'' = closes pre).
Proof.
  intros Hpre Hpost cs w' w''.
  pose proof (track_session pre Hpre) as Ht. set (w := final pre fresh) in *.
  assert (w' = snd (closed result w)) as Hw' by apply final_closed.
  assert (w'' = final post w') as Hw'' by apply final_closed_cons.
  destruct (closed_results result w _ Ht) as (Hc & Ho & Hb).
  rewrite <- Hw' in Hc, Ho, Hb.
  assert (boss_closes w' = closes pre) as Hbc.
  { transitivity (boss_closes w); [unfold boss_closes; by rewrite Hb|].
    unfold w. by rewrite (boss_closes_run pre fresh _ track_fresh Hpre). }
  split_and!.
  - rewrite issued_closes_length. unfold cs, closes.
    rewrite filter_app, length_app, filter_cons. by case_decide.
  - intros d Hd. rewrite Hw''. apply (heap_le_run post). rewrite Hw'.
    apply (closed_fans_out result w _ K_close d Ht Hd).
    by apply (track_close_pending _ _ Ht).
  - done.
  - intros Htr. rewrite <- Hc in Htr. split.
    + intros d Hd. rewrite Hw'', <- Hc. by apply issued_closes_after.
    + rewrite Hw''. destruct (quiet_run_after post w' Hpost Htr) as (_&_&->).
      done.
Qed.

(** C4. When [closed(result)] fires with a [result] that is not an
    exception, after [pre] and before [post]: the pending Deferreds of
    [when_verifier], [when_version] and [when_received] fail with
    [WormholeClosed(result)]; the Deferreds of the [close] calls made so
    far fire with [result] itself; and when [result] is truthy, so do
    those of the [close] calls made afterwards.  When [result] is falsy,
    a later [close] does not resolve with it, where the specification
    has every later [close] do so: the call hands back a new Deferred that is pending, registers it as one
    more observer, and calls the controller's [close] again, on a session
    that has closed. *)
Theorem closed_plain_fan_out pre post result :
  calm pre = true → calm post = true → is_exception result = false →
  let w := final pre fresh in
  let w' := final (pre ++ [Closed result]) fresh in
  let w'' := final (pre ++ Closed result :: post) fresh in
  (∀ k d, k ∈ [K_verifier; K_version; K_received] →
          d ∈ issued k pre (outcomes pre fresh) →
          heap w !! d = Some Pending →
          heap w' !! d = Some (Called (Failure (PyExc WormholeClosed result)))) ∧
  (∀ d, d ∈ issued K_close pre (outcomes pre fresh) →
        heap w !! d = Some Pending ∧
        heap w' !! d = Some (Called (Plain result))) ∧
  (truthy result = true →
   ∀ d, d ∈ issued K_close post (outcomes post w') →
        heap w'' !! d = Some (Called (Plain result))) ∧
  (truthy result = false →
   let late := invoke Close w' in
   fst late = Return (Future (length (heap w'))) ∧
   heap (snd late) = heap w' ++ [Pending] ∧
   fired (snd late) = fired w' ∧
   _closed_observers (self (snd late))
   = _closed_observers (self w') ++ [length (heap w')] ∧
   boss (snd late) = boss w' ++ [B_close]).
Proof.
  intros Hpre Hpost He w w' w''.
  pose proof (track_session pre Hpre) as Ht. fold w in Ht.
  assert (w' = snd (closed result w)) as Hw' by apply final_closed.
  assert (w'' = final post w') as Hw'' by apply final_closed_cons.
  destruct (closed_results result w _ Ht) as (Hc & Ho & Hb).
  rewrite <- Hw' in Hc, Ho, Hb.
  unfold terminal in Hc. unfold sticky in Ho. rewrite He in Hc, Ho.
  split_and!.
  - intros k d Hk Hd Hp. rewrite Hw'.
    rewrite (closed_fans_out result w _ k d Ht Hd Hp).
    unfold sticky. rewrite He.
    repeat (apply elem_of_cons in Hk as [->|Hk]; [done|]).
    by apply elem_of_nil in Hk.
  - intros d Hd. pose proof (track_close_pending _ _ Ht d Hd) as Hp.
    split; [done|]. rewrite Hw'.
    rewrite (closed_fans_out result w _ K_close d Ht Hd Hp).
    unfold terminal. by rewrite He.
  - intros Htr d Hd. rewrite Hw'', <- Hc.
    apply issued_closes_after; [done|by rewrite Hc|done].
  - intros Hfalsy late. unfold late.
    by rewrite close_without_result by (by rewrite Hc).
Qed.

End Closing.

(** C1: a session where the Deferred of [when_code] is dropped. *)
Lemma closed_error_fan_out_witness :
  heap (@final sample_externals
          ([When_code] ++ [Closed (PyExc WrongPasswordError PyNone)]) fresh)
    !! 0 = Some Pending.
Proof.
  apply (@closed_error_fan_out sample_externals [When_code] []
           WrongPasswordError PyNone); [reflexivity|reflexivity| |reflexivity].
  apply list_elem_of_here.
Defined.

(** C3: two [close] calls before [closed] fires: the controller's [close]
    is called twice. *)
Lemma close_twice_counterexample :
  ¬ (boss_closes (@final sample_externals [Close; Close] fresh) ≤ 1).
Proof. vm_compute. lia. Qed.

Lemma close_twice_witness :
  boss_closes (@final sample_externals
                 ([Close] ++ Closed (PyText "happy") :: [Close]) fresh) = 1.
Proof.
  apply (@close_twice sample_externals [Close] [Close] (PyText "happy"));
    reflexivity.
Defined.

(** C4: [closed] fires with the empty text while a [close] is pending;
    the pending Deferred fires with the empty text, and the [close] made
    afterwards hands back a Deferred that is pending and calls the
    controller a second time. *)
Lemma closed_plain_fan_out_witness :
  let w' := @final sample_externals ([Close] ++ [Closed (PyText "")]) fresh in
  heap w' !! 0 = Some (Called (Plain (PyText ""))) ∧
  fst (invoke (H := sample_externals) Close w') = Return (Future 1) ∧
  heap (snd (invoke (H := sample_externals) Close w'))
  = heap w' ++ [Pending] ∧
  boss (snd (invoke (H := sample_externals) Close w'))
  = [B_start; B_close; B_close].
Proof.
  destruct (@closed_plain_fan_out sample_externals [Close] []
              (PyText "") eq_refl eq_refl eq_refl)
    as (_ & Hclose & _ & Hlate).
  destruct (Hlate eq_refl) as (Hfuture & Hheap & _ & _ & Hboss).
  split_and!.
  - apply (Hclose 0). apply list_elem_of_here.
  - exact Hfuture.
  - exact Hheap.
  - exact Hboss.
Defined.

(** The session [closed(""); close()] of a fresh facade, run: the
    Deferred of [close] is left pending. *)
Example closed_empty_text_then_close :
  outcomes (H := sample_externals) [Closed (PyText ""); Close] fresh
  = [Return Nothing; Return (Future 0)] ∧
  heap (@final sample_externals [Closed (PyText ""); Close] fresh) !! 0
  = Some Pending ∧
  boss (@final sample_externals [Closed (PyText ""); Close] fresh)
  = [B_start; B_close].
Proof. by vm_compute. Qed.

(** The two closing scenarios of the specification: three pending
    Deferreds and a pending [close], then [closed] with an exception, and
    with a plain value. *)
Example error_fan_out_scenario :
  let boom := PyExc (OtherException "SomeException") (PyText "boom") in
  heap (@final sample_externals
          [When_verifier; When_version; When_received; Close; Closed boom]
          fresh)
  = [Called (Failure boom); Called (Failure boom); Called (Failure boom);
     Called (Failure boom)].
Proof. reflexivity. Qed.

Example graceful_close_scenario :
  let bye := PyText "bye" in
  heap (@final sample_externals
          [When_verifier; When_version; When_received; Close; Closed bye]
          fresh)
  = [Called (Failure (PyExc WormholeClosed bye));
     Called (Failure (PyExc WormholeClosed bye));
     Called (Failure (PyExc WormholeClosed bye));
     Called (Plain bye)].
Proof. reflexivity. Qed.

(** ** [derive_key] *)

#[global] Instance same_key_preorder : PreOrder same_key.
Proof.
  split.
  - by intros w.
  - intros w1 w2 w3 H1 H2. unfold same_key in *. congruence.
Qed.

Lemma same_key_new_Deferred : keeps same_key new_Deferred.
Proof. by intros w. Qed.

Lemma same_key_callback d r : keeps same_key (callback d r).
Proof.
  intros w. unfold callback. by destruct (heap w !! d) as [[|r']|].
Qed.

Lemma same_key_errback d r : keeps same_key (errback d r).
Proof. apply same_key_callback. Qed.

Lemma same_key_modify_self f :
  (∀ s, _key (f s) = _key s) → keeps same_key (modify_self f).
Proof. intros Hf w. apply Hf. Qed.

Lemma same_key_call_boss c : keeps same_key (call_boss c).
Proof. by intros w. Qed.

Ltac same_key_step :=
  first
    [ apply same_key_new_Deferred | apply same_key_callback
    | apply same_key_errback
    | apply same_key_modify_self; by intros []
    | apply same_key_call_boss
    | keeps_step ].

Section Derive_key.
Context `{!Externals}.

Lemma key_invoke c w :
  _key (self (snd (invoke c w)))
  = match c with Got_key key => key | _ => _key (self w) end.
Proof.
  assert (∀ m : M t answer, keeps same_key m →
            _key (self (snd (m w))) = _key (self w)) as Hk.
  { intros m Hm. apply Hm. }
  destruct c; try (apply Hk; simpl; unfold_methods; unfold succeed, fail;
                   by repeat same_key_step).
  done.
Qed.

(** [closed] included, only [got_key] writes the key. *)
Lemma key_final cs w :
  _key (self (final cs w)) = last_key cs (_key (self w)).
Proof.
  revert w. induction cs as [|c cs IH]; intros w; [done|].
  rewrite final_cons, IH, key_invoke. by destruct c.
Qed.

Lemma derive_key_eq purpose length w :
  derive_key purpose length w
  = (derive_key_outcome (_key (self w)) purpose length, w).
Proof.
  unfold derive_key, derive_key_outcome.
  destruct purpose; try done. exec. by destruct (truthy (_key (self w))).
Qed.

Lemma Delegated_derive_key_eq purpose length w :
  DelegatedWormhole.derive_key purpose length w
  = (derive_key_outcome (DelegatedWormhole._key (self w)) purpose length, w).
Proof.
  unfold DelegatedWormhole.derive_key, derive_key_outcome.
  destruct purpose; try done. exec.
  by destruct (truthy (DelegatedWormhole._key (self w))).
Qed.

Lemma last_key_app cs1 cs2 key :
  last_key (cs1 ++ cs2) key = last_key cs2 (last_key cs1 key).
Proof.
  revert key. induction cs1 as [|c cs1 IH]; intros key; [done|].
  destruct c; simpl; apply IH.
Qed.

(** C2. At the end of any session, closed or not, with a key or without
    ([cs1]): a [purpose] that is not a text makes [derive_key] raise
    [TypeError]; for a text purpose and no key delivered in the session
    ([cs]), it raises [NoKeyError]; both are raised to the caller at once,
    the facade left as it was.  But with the key [b :: bs] delivered and
    [closed(result)] fired after it, [derive_key] still hands the key to
    [derive_key] of [._key] and gives back what that gives, where the
    specification has [NoKeyError] raised. *)
Theorem derive_key_gating cs purpose p length pre post b bs result cs1 :
  is_text purpose = false →
  last_key cs PyNone = PyNone →
  last_key post (PyBytes (b :: bs)) = PyBytes (b :: bs) →
  let closed_session :=
    pre ++ Got_key (PyBytes (b :: bs)) :: post ++ [Closed result] in
  derive_key purpose length (final cs1 fresh)
  = (Raise (PyExc TypeError (PyType (type_of purpose))), final cs1 fresh) ∧
  derive_key (PyText p) length (final cs fresh)
  = (Raise (PyExc NoKeyError PyNone), final cs fresh) ∧
  derive_key (PyText p) length (final closed_session fresh)
  = (key_derive_key (PyBytes (b :: bs)) (PyBytes (to_bytes p)) length,
     final closed_session fresh).
Proof.
  intros Hp Hcs Hpost closed_session. rewrite !derive_key_eq, !key_final.
  change (_key (self fresh)) with PyNone.
  split_and!.
  - by destruct purpose.
  - by rewrite Hcs.
  - unfold closed_session. rewrite last_key_app. simpl.
    by rewrite last_key_app, Hpost.
Qed.

(** C10. On either facade, once [got_key] has delivered a falsy [key],
    [derive_key] ends as it does on a facade whose key is [None], and for a
    text purpose that is [NoKeyError]. *)
Theorem derive_key_falsy_key key purpose length p
    (w : store DeferredWormhole.t) (w' : store DelegatedWormhole.t) :
  truthy key = false →
  _key (self w) = PyNone →
  DelegatedWormhole._key (self w') = PyNone →
  fst (derive_key purpose length (snd (got_key key w)))
  = fst (derive_key purpose length w) ∧
  fst (DelegatedWormhole.derive_key purpose length
         (snd (DelegatedWormhole.got_key key w')))
  = fst (DelegatedWormhole.derive_key purpose length w') ∧
  fst (derive_key (PyText p) length (snd (got_key key w)))
  = Raise (PyExc NoKeyError PyNone) ∧
  fst (DelegatedWormhole.derive_key (PyText p) length
         (snd (DelegatedWormhole.got_key key w')))
  = Raise (PyExc NoKeyError PyNone).
Proof.
  intros Hk Hw Hw'.
  rewrite !derive_key_eq, !Delegated_derive_key_eq. simpl.
  rewrite Hw, Hw'. unfold derive_key_outcome. rewrite Hk.
  split_and!; try done; by destruct purpose.
Qed.

End Derive_key.

(** C2: the key [b"\x01"] is delivered, [closed("happy")] fires, and
    [derive_key("p", 32)] hands back key material. *)
Example derive_key_after_closed :
  outcomes (H := sample_externals)
    [Got_key (PyBytes [Byte.x01]); Closed (PyText "happy");
     Derive_key (PyText "p") (PyInt 32)] fresh
  = [Return Nothing; Return Nothing;
     Return (Value (PyBytes [Byte.x01; Byte.x70]))].
Proof. reflexivity. Qed.

Lemma derive_key_gating_witness :
  @derive_key sample_externals (PyText "p") (PyInt 32)
    (final (H := sample_externals)
       ([] ++ Got_key (PyBytes [Byte.x01]) :: [When_code]
        ++ [Closed (PyText "happy")]) fresh)
  = (Return (PyBytes [Byte.x01; Byte.x70]),
     final (H := sample_externals)
       ([] ++ Got_key (PyBytes [Byte.x01]) :: [When_code]
        ++ [Closed (PyText "happy")]) fresh).
Proof.
  apply (@derive_key_gating sample_externals [When_code] (PyInt 7) "p"
           (PyInt 32) [] [When_code] Byte.x01 [] (PyText "happy")
           [Got_key (PyBytes [Byte.x01])]);
    reflexivity.
Defined.

Lemma derive_key_falsy_key_witness :
  fst (@derive_key sample_externals (PyText "p") (PyInt 32)
         (snd (got_key (PyBytes []) fresh)))
  = Raise (PyExc NoKeyError PyNone).
Proof.
  apply (@derive_key_falsy_key sample_externals (PyBytes []) (PyText "p")
           (PyInt 32) "p" fresh (DelegatedWormhole.fresh [])); reflexivity.
Defined.

(** ** The welcome handler *)

Section Welcome.
Import WelcomeHandler.

Lemma prefix_dash c s :
  String.prefix "-" (String c s) = bool_decide (c = "-"%char).
Proof.
  change (String.prefix "-" (String c s))
    with (if ascii_dec "-" c then String.prefix "" s else false).
  destruct (ascii_dec "-" c) as [<-|Hne].
  - rewrite bool_decide_eq_true_2 by done. by destruct s.
  - by rewrite bool_decide_eq_false_2 by congruence.
Qed.

(** ["-" in s] looks for the character. *)
Lemma str_in_dash s :
  str_in "-" s = true ↔ "-"%char ∈ list_ascii_of_string s.
Proof.
  induction s as [|c s IH].
  - simpl. rewrite elem_of_nil. split; [done|tauto].
  - cbn [str_in list_ascii_of_string].
    rewrite prefix_dash, orb_true_iff, elem_of_cons, IH, bool_decide_eq_true.
    intuition.
Qed.

Lemma should_warn_spec self welcome :
  should_warn self welcome = true ↔
  ∃ theirs, welcome !! "current_cli_version" = Some theirs ∧
            str_in "-" (_current_version self) = false ∧
            _version_warning_displayed self = false ∧
            theirs ≠ _current_version self.
Proof.
  unfold should_warn. destruct (welcome !! "current_cli_version") as [theirs|].
  - rewrite !andb_true_iff, !negb_true_iff, String.eqb_neq.
    split; [intros [[??]?]; eauto|intros (? & [= <-] & ? & ? & ?); done].
  - split; [done|intros (? & ? & _); done].
Qed.

Lemma motd_message_not_warning url formatted :
  motd_message url formatted ≠ version_warning.
Proof. done. Qed.

Lemma server_claims_not_warning theirs ours :
  server_claims theirs ours ≠ version_warning.
Proof. done. Qed.

Lemma warnings_app l1 l2 : warnings (l1 ++ l2) = warnings l1 + warnings l2.
Proof. unfold warnings. by rewrite filter_app, length_app. Qed.

Lemma warnings_pos printed :
  version_warning ∈ printed ↔ 0 < warnings printed.
Proof.
  unfold warnings. induction printed as [|line printed IH].
  - rewrite elem_of_nil. simpl. lia.
  - rewrite elem_of_cons, filter_cons. case_decide as Hl; simpl.
    + split; [lia|auto].
    + rewrite IH. split; [intros [?|?]; [congruence|done]|auto].
Qed.

(** One call of [handle_welcome]: the warning is printed when
    [should_warn] holds, once, and the latch is then set and otherwise left
    as it was. *)
Lemma handle_welcome_warns self welcome :
  warnings (handle_welcome self welcome).1.2
  = (if should_warn self welcome then 1 else 0) ∧
  _version_warning_displayed (handle_welcome self welcome).1.1
  = _version_warning_displayed self || should_warn self welcome ∧
  _current_version (handle_welcome self welcome).1.1 = _current_version self.
Proof.
  assert (warnings match welcome !! "motd" with
                   | Some motd =>
                       [motd_message (_ws_url self)
                          (join (String LF " ") (splitlines motd))]
                   | None => []
                   end = 0) as Hmotd.
  { destruct (welcome !! "motd"); [|done].
    unfold warnings. by rewrite filter_cons_False
      by apply motd_message_not_warning. }
  unfold handle_welcome, should_warn.
  destruct (welcome !! "current_cli_version") as [theirs|]; simpl.
  - destruct (negb (str_in "-" (_current_version self))
              && negb (_version_warning_displayed self)
              && negb (String.eqb theirs (_current_version self))); simpl.
    + rewrite warnings_app, Hmotd. split_and!; [|by rewrite orb_true_r|done].
      unfold warnings. rewrite filter_cons_True by done.
      by rewrite filter_cons_False by apply server_claims_not_warning.
    + rewrite app_nil_r, orb_false_r. by split_and!.
  - rewrite app_nil_r, orb_false_r. by split_and!.
Qed.

Lemma should_warn_displayed self welcome :
  _version_warning_displayed self = true → should_warn self welcome = false.
Proof.
  intros Hd. unfold should_warn. rewrite Hd.
  destruct (welcome !! "current_cli_version"); [|done].
  by rewrite andb_false_r.
Qed.

Lemma deliver_cons self welcome rest :
  deliver self (welcome :: rest)
  = ((deliver (handle_welcome self welcome).1.1 rest).1,
     (handle_welcome self welcome).1.2
       ++ (deliver (handle_welcome self welcome).1.1 rest).2).
Proof.
  simpl. destruct (handle_welcome self welcome) as [[self' printed] e].
  simpl. by destruct (deliver self' rest).
Qed.

(** Over all the welcomes delivered to one handler: at most one warning,
    none when the latch was set, and the latch ends set exactly when it
    was set or a warning was printed. *)
Lemma deliver_warns self welcomes :
  warnings (deliver self welcomes).2
  ≤ (if _version_warning_displayed self then 0 else 1) ∧
  _version_warning_displayed (deliver self welcomes).1
  = _version_warning_displayed self
    || bool_decide (0 < warnings (deliver self welcomes).2).
Proof.
  revert self. induction welcomes as [|welcome rest IH]; intros self.
  - simpl. rewrite orb_false_r. split; [|done].
    destruct (_version_warning_displayed self); unfold warnings; simpl; lia.
  - rewrite deliver_cons. simpl.
    destruct (handle_welcome_warns self welcome) as (Hn & Hd & _).
    destruct (IH (handle_welcome self welcome).1.1) as [IHn IHd].
    rewrite warnings_app, IHd, Hd, Hn. rewrite Hd in IHn.
    destruct (_version_warning_displayed self) eqn:Hdisp; simpl in *.
    + rewrite (should_warn_displayed _ _ Hdisp). simpl. split; [lia|done].
    + destruct (should_warn self welcome); simpl in *.
      * split; [lia|done].
      * done.
Qed.

(** C8. One call of [handle_welcome] prints the version warning exactly
    when the welcome has a [current_cli_version], the handler's own version
    has no ["-"], the warning was not displayed before and the two versions
    differ; the latch ends set exactly when it was set or the warning was
    printed, so it is never re-armed; and over any sequence of welcomes
    delivered to one handler the warning is printed at most once, and not
    at all once the latch is set. *)
Theorem version_warning_once self welcome welcomes :
  (version_warning ∈ (handle_welcome self welcome).1.2 ↔
   ∃ theirs, welcome !! "current_cli_version" = Some theirs ∧
             ("-"%char ∉ list_ascii_of_string (_current_version self)) ∧
             _version_warning_displayed self = false ∧
             theirs ≠ _current_version self) ∧
  _version_warning_displayed (handle_welcome self welcome).1.1
  = _version_warning_displayed self
    || bool_decide (version_warning ∈ (handle_welcome self welcome).1.2) ∧
  warnings (deliver self welcomes).2
  ≤ (if _version_warning_displayed self then 0 else 1) ∧
  warnings (deliver (__init__ (_ws_url self) (_current_version self)
                              (_signal_error self)) welcomes).2 ≤ 1 ∧
  _version_warning_displayed (deliver self welcomes).1
  = _version_warning_displayed self
    || bool_decide (version_warning ∈ (deliver self welcomes).2).
Proof.
  destruct (handle_welcome_warns self welcome) as (Hn & Hd & _).
  assert (version_warning ∈ (handle_welcome self welcome).1.2
          ↔ should_warn self welcome = true) as Hin.
  { rewrite warnings_pos, Hn. destruct (should_warn self welcome); split;
      try done; lia. }
  split_and!.
  - rewrite Hin, should_warn_spec. f_equiv. intros theirs.
    rewrite <- str_in_dash, not_true_iff_false. done.
  - rewrite Hd. f_equal. destruct (should_warn self welcome).
    + by rewrite bool_decide_eq_true_2 by (by apply Hin).
    + rewrite bool_decide_eq_false_2; [done|]. rewrite Hin. done.
  - apply deliver_warns.
  - apply (deliver_warns (__init__ _ _ _)).
  - destruct (deliver_warns self welcomes) as [_ ->]. f_equal.
    apply bool_decide_ext. by rewrite warnings_pos.
Qed.

(** C8: the scenario of the specification: ours is 0.9.1, the server
    claims 0.9.0 twice. *)
Example welcome_twice :
  (deliver (__init__ "ws://relay" "0.9.1" Callable)
           [ {[ "current_cli_version" := "0.9.0" ]};
             {[ "current_cli_version" := "0.9.0" ]} ]).2
  = [version_warning; "Server claims 0.9.0 is current, but ours is 0.9.1"].
Proof. by vm_compute. Qed.

Lemma handle_welcome_ending self welcome :
  (handle_welcome self welcome).2
  = match welcome !! "error" with
    | Some error =>
        match _signal_error self with
        | Callable => Signalled (PyExc WelcomeError (PyText error)) "unwelcome"
        | NotImplemented => Raised not_callable
        end
    | None => Returned
    end.
Proof.
  unfold handle_welcome.
  destruct (welcome !! "current_cli_version") as [theirs|]; [|done].
  by destruct (negb (str_in "-" (_current_version self))
               && negb (_version_warning_displayed self)
               && negb (String.eqb theirs (_current_version self))).
Qed.

(** C9. A handler built with a callable [signal_error] signals
    [WelcomeError(error)] for every welcome that has an [error], whatever
    else the welcome holds and whatever the latch.  The handler that
    [create] builds when it is given no [welcome_handler] has
    [NotImplemented] for [signal_error], and on such a welcome
    [handle_welcome] raises [TypeError] from calling it, where the
    specification has [WelcomeError] signalled. *)
Theorem welcome_error_signalled
    version appid relay_url side delegate url displayed welcome error :
  let unwelcome := <["error" := error]> welcome in
  let default_handler := __init__ relay_url version NotImplemented in
  (handle_welcome (mk url displayed version Callable) unwelcome).2
  = Signalled (PyExc WelcomeError (PyText error)) "unwelcome" ∧
  boss_welcome_handler (create version appid relay_url side delegate None).2
  = bound_handle_welcome default_handler ∧
  (handle_welcome default_handler unwelcome).2 = Raised not_callable.
Proof.
  intros unwelcome default_handler. rewrite !handle_welcome_ending.
  unfold unwelcome. rewrite lookup_insert_eq. simpl.
  by destruct delegate as [[[] app]|].
Qed.

(** C9: [create] without a [welcome_handler], then a welcome with an
    [error]. *)
Example default_handler_unwelcome :
  ∃ wh,
    boss_welcome_handler
      (create "0.9.1" "appid" "ws://relay" "abcdef0123" None None).2
    = bound_handle_welcome wh ∧
    handle_welcome wh {[ "error" := "go away" ]}
    = (wh, [], Raised not_callable).
Proof. eexists. split; [reflexivity|]. by vm_compute. Qed.

End Welcome.

(** ** The exchange of messages *)

Lemma drop_cons_inv {A} n (l : list A) x rest :
  drop n l = x :: rest → l !! n = Some x ∧ rest = drop (S n) l.
Proof.
  intros Hd. assert (l !! n = Some x) as Hn.
  { by rewrite <- (Nat.add_0_r n), <- lookup_drop, Hd. }
  split; [done|]. rewrite (drop_S l x n Hn) in Hd. by injection Hd.
Qed.

Lemma drop_nil_inv {A} n (l : list A) : drop n l = [] → length l ≤ n.
Proof.
  intros Hd. pose proof (length_drop l n) as Hl.
  rewrite Hd in Hl. simpl in Hl. lia.
Qed.

Section Exchange.
Context `{!Externals}.

Lemma fifo_deliver w ps rs plaintext :
  fifo w ps rs →
  fst (received plaintext w) = Return () ∧
  fifo (snd (received plaintext w)) (ps ++ [plaintext]) rs.
Proof.
  intros [Ho Hdata Hobs Hcells Hnd]. unfold received. exec.
  destruct (_received_observers (self w)) as [|d rest] eqn:Hq; simpl.
  - symmetry in Hobs. apply drop_nil_inv in Hobs.
    split; [done|]. split; simpl; try done.
    + rewrite Hdata. by rewrite drop_app_le.
    + rewrite drop_ge; [done|]. rewrite length_app. simpl. lia.
    + intros i d Hi. rewrite lookup_app_l; [by apply Hcells|].
      apply lookup_lt_Some in Hi. lia.
  - symmetry in Hobs. apply drop_cons_inv in Hobs as [Hd Hrest].
    pose proof (lookup_lt_Some _ _ _ Hd) as Hlt.
    pose proof (Hcells _ _ Hd) as Hp.
    rewrite (lookup_ge_None_2 ps (length ps)) in Hp by lia.
    unfold callback. simpl. rewrite Hp. simpl.
    split; [done|]. split; simpl; try done.
    + rewrite Hdata, !drop_ge; [done|rewrite length_app; simpl; lia|lia].
    + rewrite length_app. simpl. by rewrite Nat.add_1_r.
    + intros i d' Hi. destruct (decide (i = length ps)) as [->|Hne].
      * rewrite Hd in Hi. injection Hi as <-.
        rewrite list_lookup_middle by done.
        apply list_lookup_insert_eq. by eapply lookup_lt_Some.
      * rewrite list_lookup_insert_ne.
        -- rewrite (Hcells _ _ Hi). f_equal.
           destruct (decide (i < length ps)).
           ++ by rewrite lookup_app_l.
           ++ rewrite !lookup_ge_None_2;
                [done|rewrite length_app; simpl; lia|lia].
        -- intros <-. apply Hne. by eapply NoDup_lookup.
Qed.

Lemma fifo_ask w ps rs :
  fifo w ps rs →
  ∃ d, fst (when_received w) = Return d ∧
       fifo (snd (when_received w)) ps (rs ++ [d]).
Proof.
  intros [Ho Hdata Hobs Hcells Hnd]. unfold when_received. exec.
  rewrite Ho. simpl.
  assert (∀ d, d ∈ rs → d < length (heap w)) as Hlt.
  { intros d [i Hi]%list_elem_of_lookup. eapply lookup_lt_Some.
    by apply Hcells. }
  assert (NoDup (rs ++ [length (heap w)])) as Hnd'.
  { apply NoDup_app. split_and!; [done| |apply NoDup_singleton].
    intros d Hd ->%list_elem_of_singleton. apply Hlt in Hd. lia. }
  destruct (_received_data (self w)) as [|plaintext rest] eqn:Hq; simpl.
  - symmetry in Hdata. apply drop_nil_inv in Hdata.
    eexists. split; [done|]. split; simpl; try done.
    + rewrite drop_ge; [done|]. rewrite length_app. simpl. lia.
    + rewrite Hobs. by rewrite drop_app_le.
    + intros i d [Hi|[Hi Hd]]%lookup_app_Some.
      * rewrite lookup_app_l; [by apply Hcells|].
        apply Hlt. by eapply list_elem_of_lookup_2.
      * apply list_lookup_singleton_Some in Hd as [Hi' <-].
        rewrite list_lookup_middle by done.
        by rewrite lookup_ge_None_2 by lia.
  - symmetry in Hdata. apply drop_cons_inv in Hdata as [Hp Hrest].
    pose proof (lookup_lt_Some _ _ _ Hp) as Hlen.
    rewrite succeed_eq. simpl.
    eexists. split; [done|]. split; simpl; try done.
    + rewrite length_app. simpl. by rewrite Nat.add_1_r.
    + rewrite Hobs, !drop_ge; [done|rewrite length_app; simpl; lia|lia].
    + intros i d [Hi|[Hi Hd]]%lookup_app_Some.
      * rewrite lookup_app_l; [by apply Hcells|].
        apply Hlt. by eapply list_elem_of_lookup_2.
      * apply list_lookup_singleton_Some in Hd as [Hi' <-].
        rewrite list_lookup_middle by done.
        assert (i = length rs) as -> by lia. by rewrite Hp.
Qed.

Lemma fifo_fresh : fifo fresh [] [].
Proof.
  split; try done. apply NoDup_nil_2.
Qed.

Lemma fifo_run xs w ps rs :
  fifo w ps rs →
  let cs := map exchange_call xs in
  fifo (final cs w) (ps ++ payloads xs)
       (rs ++ issued K_received cs (outcomes cs w)) ∧
  length (issued K_received cs (outcomes cs w)) = asks xs.
Proof.
  revert w ps rs. induction xs as [|x xs IH]; intros w ps rs Hf; simpl.
  - by rewrite !app_nil_r.
  - rewrite final_cons, outcomes_cons. destruct x as [plaintext|]; simpl.
    + destruct (fifo_deliver w ps rs plaintext Hf) as [Hr Hf'].
      unfold mbind, M_bind.
      destruct (received plaintext w) as [[[]|e] w1]; simpl in *; [|done].
      destruct (IH w1 _ _ Hf') as [IH1 IH2].
      by rewrite <- app_assoc in IH1.
    + destruct (fifo_ask w ps rs Hf) as (d & Hr & Hf').
      unfold mbind, M_bind.
      destruct (when_received w) as [[d'|e] w1]; simpl in *; [|done].
      injection Hr as ->.
      destruct (IH w1 _ _ Hf') as [IH1 IH2].
      rewrite <- app_assoc in IH1. simpl in IH1.
      by rewrite IH2.
Qed.

(** C6. In any interleaving [xs] of [received(payload)] events and
    [when_received()] calls on a fresh facade, with [ps] the payloads in
    the order delivered and [rs] the Deferreds in the order handed out:
    every call hands out a Deferred of its own; the Deferred of request
    [i] has fired with payload [i] when there is one, and is pending
    otherwise; the payloads beyond the last request are queued in order,
    and so are the requests beyond the last payload. *)
Theorem fifo_pairing xs :
  let cs := map exchange_call xs in
  let w := final cs fresh in
  let ps := payloads xs in
  let rs := issued K_received cs (outcomes cs fresh) in
  length rs = asks xs ∧
  NoDup rs ∧
  (∀ i d, rs !! i = Some d →
          heap w !! d = Some match ps !! i with
                             | Some plaintext => Called (Plain plaintext)
                             | None => Pending
                             end) ∧
  _received_data (self w) = drop (length rs) ps ∧
  _received_observers (self w) = drop (length ps) rs.
Proof.
  intros cs w ps rs.
  destruct (fifo_run xs fresh [] [] fifo_fresh) as [[_ Hd Ho Hc Hn] Hl].
  by split_and!.
Qed.

(** C7. In every state that a fresh facade reaches by [when_received()]
    calls and [received(payload)] events, the queue of payloads or the
    queue of requests is empty. *)
Theorem queues_exclusive xs :
  let w := final (map exchange_call xs) fresh in
  _received_data (self w) = [] ∨ _received_observers (self w) = [].
Proof.
  intros w.
  destruct (fifo_run xs fresh [] [] fifo_fresh) as [[_ Hd Ho _ _] _].
  simpl in Hd, Ho. fold w in Hd, Ho.
  destruct (decide (length (payloads xs)
                    ≤ length (issued K_received (map exchange_call xs)
                                (outcomes (map exchange_call xs) fresh)))).
  - left. rewrite Hd. by apply drop_ge.
  - right. rewrite Ho. apply drop_ge. lia.
Qed.

End Exchange.

(** ** Waiting for the code, the verifier and the version *)

Lemma fire_seq r n pre :
  fire (seq (length pre) n) r (pre ++ replicate n Pending)
  = pre ++ replicate n (Called r).
Proof.
  revert pre. induction n as [|n IH]; intros pre; simpl; [done|].
  replace (length pre) with (length pre + 0) at 2 by lia.
  rewrite insert_app_r. simpl.
  specialize (IH (pre ++ [Called r])).
  rewrite length_app, Nat.add_1_r, <- !app_assoc in IH. done.
Qed.

Section Waiting.
Context `{!Externals}.

Lemma when_unset c w obs h f :
  shape c w PyNone obs h f →
  fst (invoke (when_call c) w) = Return (Future (length h)) ∧
  shape c (snd (invoke (when_call c) w)) PyNone (obs ++ [length h])
        (h ++ [Pending]) f.
Proof.
  intros (Hs & Hobs & Ho & <- & <-).
  destruct c; simpl in *; unfold_methods; exec; rewrite Ho, Hs; simpl;
    by rewrite Hobs.
Qed.

Lemma when_set c w value obs h f :
  value ≠ PyNone →
  shape c w value obs h f →
  fst (invoke (when_call c) w) = Return (Future (length h)) ∧
  shape c (snd (invoke (when_call c) w)) value obs
        (h ++ [Called (Plain value)]) (f ++ [(length h, Plain value)]).
Proof.
  intros Hv (Hs & Hobs & Ho & <- & <-).
  assert (is_none value = false) as Hn by (by destruct value).
  destruct c; simpl in *; unfold_methods; exec; rewrite Ho, Hs; simpl;
    rewrite Hn; simpl; by rewrite succeed_eq.
Qed.

Lemma got_fires c w value old obs h f :
  shape c w old obs h f →
  NoDup obs → (∀ d, d ∈ obs → h !! d = Some Pending) →
  fst (invoke (got_call c value) w) = Return Nothing ∧
  shape c (snd (invoke (got_call c value) w)) value []
        (fire obs (Plain value) h) (f ++ map (λ d, (d, Plain value)) obs).
Proof.
  intros (Hs & Hobs & Ho & <- & <-) Hnd Hp.
  destruct c; simpl in *; unfold_methods; exec;
    rewrite Hobs, for_each_callback by done; done.
Qed.

Lemma whens_unset c n w obs h f :
  shape c w PyNone obs h f →
  outcomes (replicate n (when_call c)) w = futures (seq (length h) n) ∧
  shape c (final (replicate n (when_call c)) w) PyNone
        (obs ++ seq (length h) n) (h ++ replicate n Pending) f.
Proof.
  revert w obs h. induction n as [|n IH]; intros w obs h Hw; simpl.
  - by rewrite !app_nil_r.
  - rewrite outcomes_cons, final_cons.
    destruct (when_unset c w obs h f Hw) as [-> Hw1].
    destruct (IH _ _ _ Hw1) as [-> IH2].
    rewrite length_app, Nat.add_1_r in *. rewrite <- !app_assoc in IH2.
    done.
Qed.

Lemma whens_set c n w value obs h f :
  value ≠ PyNone →
  shape c w value obs h f →
  outcomes (replicate n (when_call c)) w = futures (seq (length h) n) ∧
  shape c (final (replicate n (when_call c)) w) value obs
        (h ++ replicate n (Called (Plain value)))
        (f ++ map (λ d, (d, Plain value)) (seq (length h) n)).
Proof.
  intros Hv. revert w h f. induction n as [|n IH]; intros w h f Hw; simpl.
  - by rewrite !app_nil_r.
  - rewrite outcomes_cons, final_cons.
    destruct (when_set c w value obs h f Hv Hw) as [-> Hw1].
    destruct (IH _ _ _ Hw1) as [-> IH2].
    rewrite length_app, Nat.add_1_r in *. rewrite <- !app_assoc in IH2.
    done.
Qed.

Lemma shape_fresh c : shape c fresh PyNone [] [] [].
Proof. by destruct c. Qed.

(** C5, as amended. On a fresh facade, for the code, the verifier and the
    version alike: [n] calls of [when_X], then [got_X(value)] with a value
    other than [None], which is how the facade marks a value not yet
    delivered, then [m] more calls of [when_X].  The first [n] calls hand back the
    pending Deferreds [0 .. n-1], registered in this order; [got_X] fires
    each of them with [value], once and in this order, and empties the
    list of observers; each later call hands back a new Deferred that has
    already fired with [value], and registers nothing. *)
Theorem when_got_when c value n m :
  value ≠ PyNone →
  let before := replicate n (when_call c) in
  let event := before ++ [got_call c value] in
  let cs := before ++ got_call c value :: replicate m (when_call c) in
  outcomes cs fresh
  = futures (seq 0 n) ++ Return Nothing :: futures (seq n m) ∧
  shape c (final before fresh) PyNone (seq 0 n) (replicate n Pending) [] ∧
  shape c (final event fresh) value [] (replicate n (Called (Plain value)))
        (map (λ d, (d, Plain value)) (seq 0 n)) ∧
  shape c (final cs fresh) value []
        (replicate (n + m) (Called (Plain value)))
        (map (λ d, (d, Plain value)) (seq 0 (n + m))).
Proof.
  intros Hv before event cs.
  destruct (whens_unset c n fresh [] [] [] (shape_fresh c)) as [Ho1 Hs1].
  simpl in Ho1, Hs1. fold before in Ho1, Hs1.
  assert (NoDup (seq 0 n)) as Hnd by apply NoDup_seq.
  assert (∀ d, d ∈ seq 0 n → replicate n Pending !! d = Some Pending) as Hp.
  { intros d Hd%elem_of_seq. apply lookup_replicate_2. lia. }
  destruct (got_fires c (final before fresh) value _ _ _ _ Hs1 Hnd Hp)
    as [Ho2 Hs2].
  pose proof (fire_seq (Plain value) n []) as Hfire. simpl in Hfire.
  rewrite Hfire in Hs2. simpl in Hs2.
  assert (final event fresh = snd (invoke (got_call c value) (final before fresh)))
    as Hev.
  { unfold event. by rewrite final_app, final_cons. }
  rewrite <- Hev in Hs2.
  destruct (whens_set c m (final event fresh) value _ _ _ Hv Hs2) as [Ho3 Hs3].
  rewrite length_replicate in Ho3, Hs3.
  assert (final cs fresh = final (replicate m (when_call c)) (final event fresh))
    as Hcs.
  { unfold cs, event. by rewrite !final_app, !final_cons. }
  rewrite <- Hcs in Hs3.
  split_and!; try done.
  - unfold cs. rewrite outcomes_app, outcomes_cons. fold before.
    rewrite Ho1, Ho2. f_equal. f_equal. by rewrite <- Hev.
  - rewrite replicate_add, seq_app, map_app. done.
Qed.

End Waiting.

Lemma when_got_when_witness :
  outcomes (H := sample_externals)
    (replicate 2 (when_call Verifier)
     ++ got_call Verifier (PyBytes [Byte.x2a])
     :: replicate 1 (when_call Verifier)) fresh
  = futures (seq 0 2) ++ Return Nothing :: futures (seq 2 1).
Proof.
  apply (@when_got_when sample_externals Verifier (PyBytes [Byte.x2a]) 2 1).
  discriminate.
Defined.

(** C5: [got_code(None)], then [when_code].  The call made after the
    event does not hand back the value delivered: its Deferred is pending
    and registered, as if no code had come. *)
Lemma when_got_when_counterexample :
  let cs := got_call Code PyNone :: replicate 1 (when_call Code) in
  let w := @final sample_externals cs fresh in
  outcomes (H := sample_externals) cs fresh
  = [Return Nothing; Return (Future 0)] ∧
  heap w !! 0 = Some Pending ∧
  heap w !! 0 ≠ Some (Called (Plain PyNone)) ∧
  _code_observers (self w) = [0].
Proof. by vm_compute. Qed.

(** ** The delegate-style facade *)

Section Delegated.
Context `{!Externals}.
Import DelegatedSession.

Lemma Delegated_final_cons c cs w :
  final (c :: cs) w = final cs (snd (invoke c w)).
Proof.
  unfold final. simpl. destruct (invoke c w) as [o w1].
  simpl. by destruct (run cs w1).
Qed.

Lemma Delegated_outcomes_cons c cs w :
  outcomes (c :: cs) w = fst (invoke c w) :: outcomes cs (snd (invoke c w)).
Proof.
  unfold outcomes. simpl. destruct (invoke c w) as [o w1].
  simpl. by destruct (run cs w1).
Qed.

(** One call on the delegate-style facade: what it hands back and the
    store it leaves. *)
Lemma Delegated_invoke c w :
  invoke c w
  = (match c with
     | Derive_key purpose length =>
         match derive_key_outcome (DelegatedWormhole._key (self w))
                 purpose length with
         | Return v => Return (Value v)
         | Raise e => Raise e
         end
     | _ => Return Nothing
     end,
     Store (DelegatedWormhole.mk
              (DelegatedWormhole._delegate (self w)
                 ++ option_list (notification_of c))
              (match c with
               | Got_key key => key
               | _ => DelegatedWormhole._key (self w)
               end))
           (heap w) (fired w) (boss w ++ option_list (command_of c))).
Proof.
  destruct w as [[delegate key] h f b].
  destruct c; simpl; try (by rewrite ?app_nil_r).
  unfold mbind, M_bind. rewrite Delegated_derive_key_eq. simpl.
  rewrite !app_nil_r. by destruct (derive_key_outcome key purpose length).
Qed.

(** X1. The delegate-style facade buffers nothing and forwards in order:
    at the end of any session, the delegate has received, after what it
    held, one notification for each [got_code], [got_verifier],
    [got_version], [received] and [closed] event, in the order of the
    events, and none for [got_welcome], [got_key] or any call from above;
    and no Deferred was ever made. *)
Theorem delegate_notified_in_order cs delegate :
  DelegatedWormhole._delegate (self (final cs (DelegatedWormhole.fresh delegate)))
  = delegate ++ omap notification_of cs ∧
  heap (final cs (DelegatedWormhole.fresh delegate)) = [].
Proof.
  assert (∀ w, DelegatedWormhole._delegate (self (final cs w))
               = DelegatedWormhole._delegate (self w)
                 ++ omap notification_of cs ∧
               heap (final cs w) = heap w) as Hgen.
  { induction cs as [|c cs IH]; intros w.
    - unfold final. simpl. by rewrite app_nil_r.
    - rewrite Delegated_final_cons. destruct (IH (snd (invoke c w))) as [-> ->].
      rewrite Delegated_invoke. simpl. rewrite <- app_assoc.
      by destruct (notification_of c). }
  apply Hgen.
Qed.

(** X2. The delegate-style facade relays every call from above to the
    controller, in order and with its arguments: at the end of any session
    the controller has been started and then called once for each
    [allocate_code], [input_code], [set_code], [send], [close] and
    [debug_set_trace], every [close] included; events from below and
    [derive_key] reach the controller never. *)
Theorem delegate_commands_relayed cs delegate :
  boss (final cs (DelegatedWormhole.fresh delegate))
  = B_start :: omap command_of cs.
Proof.
  assert (∀ w, boss (final cs w) = boss w ++ omap command_of cs) as Hgen.
  { induction cs as [|c cs IH]; intros w.
    - unfold final. simpl. by rewrite app_nil_r.
    - rewrite Delegated_final_cons, IH, Delegated_invoke. simpl.
      rewrite <- app_assoc. by destruct (command_of c). }
  apply Hgen.
Qed.

Lemma Delegated_key_final cs w :
  DelegatedWormhole._key (self (final cs w))
  = last_key cs (DelegatedWormhole._key (self w)).
Proof.
  revert w. induction cs as [|c cs IH]; intros w; [done|].
  rewrite Delegated_final_cons, IH, Delegated_invoke. by destruct c.
Qed.

(** X3. On the delegate-style facade [derive_key] is decided by the
    purpose and by the key delivered last, whatever else happened in the
    session, [closed] included.  At the end of any session [cs1], with a
    key or without, a purpose that is not a text raises [TypeError]; at
    the end of a session [cs0] where no key, or a falsy one, was
    delivered last, a text purpose raises [NoKeyError]; at the end of a
    session [cs] where a truthy key was delivered last, a text purpose
    gets what [derive_key] of [._key] gives on that key.  The facade is
    left as it was in all three cases. *)
Theorem delegate_derive_key cs cs0 cs1 delegate purpose p length :
  is_text purpose = false →
  truthy (last_key cs0 PyNone) = false →
  truthy (last_key cs PyNone) = true →
  let w := final cs (DelegatedWormhole.fresh delegate) in
  let w0 := final cs0 (DelegatedWormhole.fresh delegate) in
  let w1 := final cs1 (DelegatedWormhole.fresh delegate) in
  DelegatedWormhole.derive_key purpose length w1
  = (Raise (PyExc TypeError (PyType (type_of purpose))), w1) ∧
  DelegatedWormhole.derive_key (PyText p) length w0
  = (Raise (PyExc NoKeyError PyNone), w0) ∧
  DelegatedWormhole.derive_key (PyText p) length w
  = (key_derive_key (last_key cs PyNone) (PyBytes (to_bytes p)) length, w).
Proof.
  intros Hp Hk0 Hk w w0 w1. unfold w, w0, w1.
  rewrite !Delegated_derive_key_eq, !Delegated_key_final.
  change (DelegatedWormhole._key (self (DelegatedWormhole.fresh delegate)))
    with PyNone.
  unfold derive_key_outcome. rewrite Hk, Hk0.
  split_and!; try done. by destruct purpose.
Qed.

End Delegated.

Lemma delegate_derive_key_witness :
  DelegatedWormhole.derive_key (H := sample_externals) (PyText "p") (PyInt 32)
    (DelegatedSession.final (H := sample_externals)
       [DelegatedSession.Got_key (PyBytes [Byte.x01]);
        DelegatedSession.Closed (PyText "happy")]
       (DelegatedWormhole.fresh []))
  = (Return (PyBytes [Byte.x01; Byte.x70]),
     DelegatedSession.final (H := sample_externals)
       [DelegatedSession.Got_key (PyBytes [Byte.x01]);
        DelegatedSession.Closed (PyText "happy")]
       (DelegatedWormhole.fresh [])).
Proof.
  apply (@delegate_derive_key sample_externals
           [DelegatedSession.Got_key (PyBytes [Byte.x01]);
            DelegatedSession.Closed (PyText "happy")]
           [DelegatedSession.Got_key (PyBytes [])] [] [] (PyInt 7) "p"
           (PyInt 32)); reflexivity.
Defined.

(** ** What reaches the controller *)

#[global] Instance same_boss_preorder : PreOrder same_boss.
Proof.
  split.
  - by intros w.
  - intros w1 w2 w3 H1 H2. unfold same_boss in *. congruence.
Qed.

Lemma same_boss_new_Deferred : keeps same_boss new_Deferred.
Proof. by intros w. Qed.

Lemma same_boss_callback d r : keeps same_boss (callback d r).
Proof.
  intros w. unfold callback. by destruct (heap w !! d) as [[|r']|].
Qed.

Lemma same_boss_errback d r : keeps same_boss (errback d r).
Proof. apply same_boss_callback. Qed.

Lemma same_boss_modify_self f : keeps same_boss (modify_self f).
Proof. by intros w. Qed.

Ltac same_boss_step :=
  first
    [ apply same_boss_new_Deferred | apply same_boss_callback
    | apply same_boss_errback | apply same_boss_modify_self
    | keeps_step ].

Section Relay.
Context `{!Externals}.

(** Whatever the store, a call that is neither [close] nor relayed leaves
    the controller alone: every [when_*], [derive_key] and every event from
    below, [closed] included. *)
Lemma same_boss_invoke c :
  relayed c = None → keeps same_boss (invoke c).
Proof.
  destruct c; simpl; try done; intros _; unfold_methods;
    unfold succeed, fail; repeat same_boss_step.
Qed.

Lemma boss_step_open c w :
  _closed_result (self w) = Plain PyNone →
  boss (snd (invoke c w)) = boss w ++ option_list (relayed c).
Proof.
  intros Hr. destruct (relayed c) as [b|] eqn:Hc.
  - destruct c; try done; simpl in *; injection Hc as <-; try done.
    unfold close. exec. by rewrite Hr.
  - rewrite (same_boss_invoke c Hc w). simpl. by rewrite app_nil_r.
Qed.

Lemma boss_step_falsy c w :
  obj_truthy (_closed_result (self w)) = false →
  boss (snd (invoke c w)) = boss w ++ option_list (relayed c).
Proof.
  intros Hr. destruct (relayed c) as [b|] eqn:Hc.
  - destruct c; try done; simpl in *; injection Hc as <-; try done.
    unfold close. exec. by rewrite Hr.
  - rewrite (same_boss_invoke c Hc w). simpl. by rewrite app_nil_r.
Qed.

Lemma boss_step_after c w :
  obj_truthy (_closed_result (self w)) = true →
  boss (snd (invoke c w)) = boss w ++ option_list (relayed_after c).
Proof.
  intros Hr. destruct (is_Close c) eqn:Hcl.
  - destruct c; try done.
    rewrite close_after_closed by done. simpl. by rewrite app_nil_r.
  - assert (relayed_after c = relayed c) as -> by (by destruct c).
    destruct (relayed c) as [b|] eqn:Hc.
    + destruct c; try done; simpl in *; by injection Hc as <-.
    + rewrite (same_boss_invoke c Hc w). simpl. by rewrite app_nil_r.
Qed.

Lemma boss_run_open cs w :
  calm cs = true → _closed_result (self w) = Plain PyNone →
  boss (final cs w) = boss w ++ omap relayed cs.
Proof.
  revert w. induction cs as [|c cs IH]; intros w Hc Hr.
  - unfold final. simpl. by rewrite app_nil_r.
  - simpl in Hc. apply andb_true_iff in Hc as [Hc Hcs].
    apply negb_true_iff in Hc. destruct (settled_invoke c Hc w) as [Hs _].
    rewrite final_cons, IH, boss_step_open by congruence.
    rewrite <- app_assoc. simpl. by destruct (relayed c).
Qed.

Lemma boss_run_after cs w :
  calm cs = true → obj_truthy (_closed_result (self w)) = true →
  boss (final cs w) = boss w ++ omap relayed_after cs.
Proof.
  revert w. induction cs as [|c cs IH]; intros w Hc Hr.
  - unfold final. simpl. by rewrite app_nil_r.
  - simpl in Hc. apply andb_true_iff in Hc as [Hc Hcs].
    apply negb_true_iff in Hc. destruct (settled_invoke c Hc w) as [Hs _].
    rewrite final_cons, IH, boss_step_after by congruence.
    rewrite <- app_assoc. simpl. by destruct (relayed_after c).
Qed.

Lemma boss_run_falsy cs w :
  calm cs = true → obj_truthy (_closed_result (self w)) = false →
  boss (final cs w) = boss w ++ omap relayed cs.
Proof.
  revert w. induction cs as [|c cs IH]; intros w Hc Hr.
  - unfold final. simpl. by rewrite app_nil_r.
  - simpl in Hc. apply andb_true_iff in Hc as [Hc Hcs].
    apply negb_true_iff in Hc. destruct (settled_invoke c Hc w) as [Hs _].
    rewrite final_cons, IH, boss_step_falsy by congruence.
    rewrite <- app_assoc. simpl. by destruct (relayed c).
Qed.

(** X4. What the Deferred-style facade sends to the controller, for a
    session where [closed(result)] fires once, after [pre] and before
    [post], whatever the result: the controller is started and then
    called once, in order and with the same arguments, for each
    [allocate_code], [input_code], [set_code], [send], [close] and
    [debug_set_trace] of [pre]; [closed] itself calls nothing; and the
    same goes on in [post], but for [close] when the terminal value is
    truthy, which then stays in the facade; when the terminal value is
    falsy every [close] of [post] is relayed as well.  No [when_*], no
    [derive_key] and no event from below reaches the controller. *)
Theorem commands_relayed pre post result :
  calm pre = true → calm post = true →
  boss (final pre fresh) = B_start :: omap relayed pre ∧
  boss (final (pre ++ [Closed result]) fresh) = B_start :: omap relayed pre ∧
  boss (final (pre ++ Closed result :: post) fresh)
  = B_start :: omap relayed pre
    ++ omap (if obj_truthy (terminal result) then relayed_after else relayed)
         post.
Proof.
  intros Hpre Hpost.
  pose proof (track_session pre Hpre) as Ht.
  destruct (closed_results result _ _ Ht) as (Hc & _ & Hb).
  assert (boss (final pre fresh) = B_start :: omap relayed pre) as Hpre'.
  { by rewrite boss_run_open. }
  split_and!; [done|by rewrite final_closed, Hb|].
  rewrite final_closed_cons.
  destruct (obj_truthy (terminal result)) eqn:Htr.
  - rewrite boss_run_after; [|done|by rewrite final_closed, Hc].
    by rewrite final_closed, Hb, Hpre'.
  - rewrite boss_run_falsy; [|done|by rewrite final_closed, Hc].
    by rewrite final_closed, Hb, Hpre'.
Qed.

End Relay.

Lemma commands_relayed_witness :
  boss (@final sample_externals
          ([Send (PyBytes [Byte.x01]); Close] ++ Closed (PyText "happy")
           :: [Close; Send (PyBytes [Byte.x02])]) fresh)
  = [B_start; B_send (PyBytes [Byte.x01]); B_close;
     B_send (PyBytes [Byte.x02])].
Proof.
  apply (@commands_relayed sample_externals
           [Send (PyBytes [Byte.x01]); Close]
           [Close; Send (PyBytes [Byte.x02])] (PyText "happy"));
    reflexivity.
Defined.

(** ** Events before and after [closed] *)

(** A loop of [callback]s whose first Deferred has fired raises at once and
    changes nothing. *)
Lemma for_each_callback_Called {S} d ds x r (w : store S) :
  heap w !! d = Some (Called x) →
  for_each (d :: ds) (λ d, callback d r) w
  = (Raise (PyExc AlreadyCalledError PyNone), w).
Proof.
  intros Hd. simpl. unfold mbind, M_bind, callback. by rewrite Hd.
Qed.

Section Events.
Context `{!Externals}.

Lemma then_Nothing (m : M t unit) w :
  (m ≫= λ _, mret Nothing) w
  = (match fst (m w) with
     | Return _ => Return Nothing
     | Raise e => Raise e
     end, snd (m w)).
Proof. unfold mbind, M_bind. by destruct (m w) as [[[]|e] w1]. Qed.

Lemma final_snoc cs c w :
  final (cs ++ [c]) w = snd (invoke c (final cs w)).
Proof. by rewrite final_app, final_cons. Qed.

Lemma outcomes_snoc cs c w :
  outcomes (cs ++ [c]) w = outcomes cs w ++ [fst (invoke c (final cs w))].
Proof. by rewrite outcomes_app, outcomes_cons. Qed.

Lemma snoc2 {A} (l : list A) a b : l ++ [a; b] = (l ++ [a]) ++ [b].
Proof. by rewrite <- app_assoc. Qed.

Lemma event_returns c w iss :
  track w iss → from_below c = true → fst (invoke c w) = Return Nothing.
Proof.
  intros Ht Hc. destruct c; try done; simpl; unfold_methods; exec.
  - rewrite for_each_callback; simpl;
      [done|apply (track_NoDup _ _ Ht K_code)
      |intros d Hd; by apply (track_pending _ _ K_code _ Ht)].
  - rewrite for_each_callback; simpl;
      [done|apply (track_NoDup _ _ Ht K_verifier)
      |intros d Hd; by apply (track_pending _ _ K_verifier _ Ht)].
  - rewrite for_each_callback; simpl;
      [done|apply (track_NoDup _ _ Ht K_version)
      |intros d Hd; by apply (track_pending _ _ K_version _ Ht)].
  - destruct (_received_observers (self w)) as [|d rest] eqn:Hobs; [done|].
    simpl. unfold callback. simpl.
    rewrite (track_pending _ _ K_received d Ht); [done|].
    simpl. rewrite Hobs. apply list_elem_of_here.
Qed.

Lemma events_return cs w iss i c :
  track w iss → calm cs = true →
  cs !! i = Some c → from_below c = true →
  outcomes cs w !! i = Some (Return Nothing).
Proof.
  revert w iss i. induction cs as [|c' cs IH]; intros w iss i Ht Hc Hi Hb;
    [done|].
  simpl in Hc. apply andb_true_iff in Hc as [Hc Hcs].
  apply negb_true_iff in Hc. rewrite outcomes_cons.
  destruct i as [|i]; simpl in *.
  - injection Hi as ->. f_equal. by eapply event_returns.
  - eapply IH; [by apply track_step|done..].
Qed.

(** X5. Until [closed] fires, the facade fires no Deferred twice: in a
    session from a fresh facade every event from below ([got_code],
    [got_welcome], [got_key], [got_verifier], [got_version], [received])
    returns, however the [when_*] calls and repeated events are
    interleaved, and so does the [closed] event that ends it. *)
Theorem events_never_raise cs i c result :
  calm cs = true →
  cs !! i = Some c → from_below c = true →
  outcomes cs fresh !! i = Some (Return Nothing) ∧
  fst (invoke (Closed result) (final cs fresh)) = Return Nothing.
Proof.
  intros Hc Hi Hb. split.
  - by eapply events_return; [apply track_fresh|..].
  - simpl. unfold mbind, M_bind.
    by rewrite (closed_eq _ _ _ (track_session cs Hc)).
Qed.

(** The store after [closed]: the observers are still registered, those
    of the code pending, the others fired. *)
Lemma after_closed pre result :
  calm pre = true →
  let w := final pre fresh in
  let w' := final (pre ++ [Closed result]) fresh in
  (∀ k, observers k (self w') = observers k (self w)) ∧
  _code (self w') = _code (self w) ∧
  _verifier (self w') = _verifier (self w) ∧
  _version (self w') = _version (self w) ∧
  _received_data (self w') = _received_data (self w) ∧
  _observer_result (self w') = sticky result ∧
  _closed_result (self w') = terminal result ∧
  NoDup (_code_observers (self w)) ∧
  (∀ d, d ∈ _code_observers (self w) → heap w' !! d = Some Pending) ∧
  (∀ d, d ∈ waiting (self w) → ∃ x, heap w' !! d = Some (Called x)).
Proof.
  intros Hpre w w'. pose proof (track_session pre Hpre) as Ht. fold w in Ht.
  assert (w' = snd (closed result w)) as Hw' by apply final_closed.
  assert (∀ k d, d ∈ observers k (self w) →
                 heap w' !! d
                 = Some match k with
                        | K_code => Pending
                        | K_close => Called (terminal result)
                        | _ => Called (as_Failure (sticky result))
                        end) as Hfan.
  { intros k d Hd. apply (track_observers _ _ Ht) in Hd as [Hi Hp].
    rewrite Hw'. by eapply closed_fans_out. }
  rewrite Hw', (closed_eq _ _ _ Ht) in *. simpl.
  simpl in Hfan. split_and!; try done.
  - apply (track_NoDup _ _ Ht K_code).
  - intros d Hd. by apply (Hfan K_code).
  - intros d. unfold waiting. rewrite !elem_of_app.
    intros [Hd|[Hd|[Hd|Hd]]].
    + rewrite (Hfan K_verifier d Hd). eauto.
    + rewrite (Hfan K_version d Hd). eauto.
    + rewrite (Hfan K_received d Hd). eauto.
    + rewrite (Hfan K_close d Hd). eauto.
Qed.

(** X6. [closed] leaves the observers of the code registered and pending,
    so a [got_code] that comes after it still fires every pending Deferred
    of [when_code] with the code, returns, and empties the list. *)
Theorem late_got_code pre result code :
  calm pre = true →
  let w := final pre fresh in
  let w'' := final (pre ++ [Closed result; Got_code code]) fresh in
  outcomes (pre ++ [Closed result; Got_code code]) fresh
  = outcomes pre fresh ++ [Return Nothing; Return Nothing] ∧
  (∀ d, d ∈ issued K_code pre (outcomes pre fresh) →
        heap w !! d = Some Pending →
        heap w'' !! d = Some (Called (Plain code))) ∧
  _code_observers (self w'') = [].
Proof.
  intros Hpre w w''.
  pose proof (track_session pre Hpre) as Ht. fold w in Ht.
  destruct (after_closed pre result Hpre)
    as (Hobs & _ & _ & _ & _ & _ & _ & Hnd & Hpend & _).
  fold w in Hobs, Hnd, Hpend.
  set (w' := final (pre ++ [Closed result]) fresh) in *.
  assert (got_code code w'
          = (Return (),
             Store (set__code_observers [] (set__code code (self w')))
                   (fire (_code_observers (self w)) (Plain code) (heap w'))
                   (fired w' ++ map (λ d, (d, Plain code))
                                    (_code_observers (self w)))
                   (boss w'))) as Hgot.
  { pose proof (Hobs K_code) as Hoc. simpl in Hoc.
    unfold got_code. exec. rewrite Hoc.
    by rewrite for_each_callback. }
  assert (w'' = snd (got_code code w')) as Hw''.
  { unfold w'', w'. rewrite snoc2, final_snoc. simpl. by rewrite then_Nothing. }
  split_and!.
  - rewrite snoc2, !outcomes_snoc. fold w w'. rewrite <- app_assoc.
    f_equal. simpl. rewrite !then_Nothing, Hgot.
    by rewrite (closed_eq _ _ _ Ht).
  - intros d Hd Hp. rewrite Hw'', Hgot. simpl.
    assert (d ∈ _code_observers (self w)) as Hin.
    { by apply (track_observers _ _ Ht K_code). }
    apply fire_lookup_in; [done|]. eapply lookup_lt_Some. by apply Hpend.
  - by rewrite Hw'', Hgot.
Qed.

(** X7. [closed] fires the observers of the verifier and of the version
    and leaves them in their lists, so a [got_verifier] or [got_version]
    that comes after it, with an observer pending when [closed] fired,
    raises [AlreadyCalledError] from the first callback: the value is
    stored, the list is not emptied, no Deferred changes. *)
Theorem late_got_raises pre result c value d ds :
  calm pre = true → c ≠ Code →
  observers (category_kind c) (self (final pre fresh)) = d :: ds →
  let w' := final (pre ++ [Closed result]) fresh in
  let w'' := snd (invoke (got_call c value) w') in
  fst (invoke (got_call c value) w')
  = Raise (PyExc AlreadyCalledError PyNone) ∧
  slot c (self w'') = value ∧
  observers (category_kind c) (self w'') = d :: ds ∧
  heap w'' = heap w' ∧ fired w'' = fired w'.
Proof.
  intros Hpre Hc Hobs w' w''.
  destruct (after_closed pre result Hpre)
    as (Hsame & _ & _ & _ & _ & _ & _ & _ & _ & Hcalled).
  fold w' in Hsame, Hcalled.
  specialize (Hsame (category_kind c)). rewrite Hobs in Hsame.
  destruct (Hcalled d) as [x Hx].
  { unfold waiting. rewrite !elem_of_app.
    destruct c; [done|left|right; left]; simpl in Hobs; rewrite Hobs;
      apply list_elem_of_here. }
  unfold w''.
  destruct c; [done| |]; simpl in *; unfold_methods; rewrite then_Nothing;
    exec; rewrite Hsame; by rewrite (for_each_callback_Called d ds x).
Qed.

Lemma loop_fired ds r (w : store t) :
  (∀ d, d ∈ ds → ∃ x, heap w !! d = Some (Called x)) →
  for_each ds (λ d, callback d r) w
  = (match ds with
     | [] => Return ()
     | _ :: _ => Raise (PyExc AlreadyCalledError PyNone)
     end, w).
Proof.
  intros Hds. destruct ds as [|d ds]; [done|].
  destruct (Hds d) as [x Hx]; [apply list_elem_of_here|].
  by apply for_each_callback_Called with x.
Qed.

Lemma loop_fired_errback ds r (w : store t) :
  (∀ d, d ∈ ds → ∃ x, heap w !! d = Some (Called x)) →
  for_each ds (λ d, errback d r) w
  = (match ds with
     | [] => Return ()
     | _ :: _ => Raise (PyExc AlreadyCalledError PyNone)
     end, w).
Proof. apply loop_fired. Qed.

(** [closed] on a store where every Deferred it would fire has fired. *)
Lemma closed_again result w :
  (∀ d, d ∈ waiting (self w) → ∃ x, heap w !! d = Some (Called x)) →
  closed result w
  = (match waiting (self w) with
     | [] => Return ()
     | _ :: _ => Raise (PyExc AlreadyCalledError PyNone)
     end,
     Store (set__observer_result (sticky result)
              (set__closed_result (terminal result) (self w)))
           (heap w) (fired w) (boss w)).
Proof.
  intros Hcalled. unfold closed, sticky, terminal, waiting in *.
  destruct (is_exception result); exec.
  all: rewrite loop_fired_errback
    by (intros d Hd; apply Hcalled; rewrite !elem_of_app; auto).
  all: destruct (_verifier_observers (self w)) as [|d1 l1]; simpl; [|done].
  all: rewrite loop_fired_errback
    by (intros d Hd; apply Hcalled; rewrite !elem_of_app; auto).
  all: destruct (_version_observers (self w)) as [|d2 l2]; simpl; [|done].
  all: rewrite loop_fired_errback
    by (intros d Hd; apply Hcalled; rewrite !elem_of_app; auto).
  all: destruct (_received_observers (self w)) as [|d3 l3]; simpl; [|done].
  all: rewrite loop_fired
    by (intros d Hd; apply Hcalled; rewrite !elem_of_app; auto).
  all: by destruct (_closed_observers (self w)).
Qed.

(** X8. A second [closed] overwrites both terminal results with those of
    its own argument, so that later [close] and [when_*] calls see the
    second result, but changes no Deferred: those fired by the first
    [closed] keep what they hold; and it raises [AlreadyCalledError]
    exactly when some observer of the verifier, the version, a message or
    [close] was pending at the first [closed]. *)
Theorem second_closed pre first second :
  calm pre = true →
  let w := final pre fresh in
  let w1 := final (pre ++ [Closed first]) fresh in
  let w2 := final (pre ++ [Closed first; Closed second]) fresh in
  _closed_result (self w2) = terminal second ∧
  _observer_result (self w2) = sticky second ∧
  heap w2 = heap w1 ∧ fired w2 = fired w1 ∧
  outcomes (pre ++ [Closed first; Closed second]) fresh
  = outcomes pre fresh
    ++ [Return Nothing;
        match waiting (self w) with
        | [] => Return Nothing
        | _ :: _ => Raise (PyExc AlreadyCalledError PyNone)
        end].
Proof.
  intros Hpre w w1 w2.
  pose proof (track_session pre Hpre) as Ht. fold w in Ht.
  destruct (after_closed pre first Hpre)
    as (Hsame & _ & _ & _ & _ & _ & _ & _ & _ & Hcalled).
  fold w w1 in Hsame, Hcalled.
  assert (waiting (self w1) = waiting (self w)) as Hw.
  { unfold waiting. pose proof (Hsame K_verifier). pose proof (Hsame K_version).
    pose proof (Hsame K_received). pose proof (Hsame K_close).
    simpl in *. congruence. }
  assert (w2 = snd (closed second w1)) as Hw2.
  { unfold w2, w1. rewrite snoc2, final_snoc. simpl. by rewrite then_Nothing. }
  rewrite <- Hw in Hcalled.
  pose proof (closed_again second w1 Hcalled) as Hagain.
  rewrite snoc2, !outcomes_snoc. fold w w1. rewrite <- app_assoc.
  rewrite Hw2. simpl. rewrite !then_Nothing, Hagain, Hw.
  rewrite (closed_eq _ _ _ Ht). simpl.
  split_and!; try done. by destruct (waiting (self w)).
Qed.

Lemma whens_leave_self post w :
  forallb is_when post = true →
  obj_is_none (_observer_result (self w)) = false →
  self (final post w) = self w ∧
  outcomes post w = futures (seq (length (heap w)) (length post)) ∧
  heap (final post w)
  = heap w ++ replicate (length post)
                        (Called (as_Failure (_observer_result (self w)))).
Proof.
  revert w. induction post as [|c post IH]; intros w Hpost Ho.
  - unfold final, outcomes. simpl. by rewrite app_nil_r.
  - simpl in Hpost. apply andb_true_iff in Hpost as [Hc Hpost].
    assert (∃ k, kind_of c = Some k ∧ k ≠ K_close) as (k & Hk & Hne).
    { destruct c; try done; eexists; split; done. }
    rewrite final_cons, outcomes_cons, (when_after_closed c k w Hk Hne Ho).
    simpl. destruct (IH (Store (self w)
                           (heap w ++ [Called (as_Failure (_observer_result (self w)))])
                           (fired w ++ [(length (heap w),
                                         as_Failure (_observer_result (self w)))])
                           (boss w)) Hpost Ho) as (-> & -> & ->).
    simpl. rewrite length_app, Nat.add_1_r, <- app_assoc. done.
Qed.

(** X9. Once [closed] has fired, the [when_*] calls change nothing in the
    facade: each hands back a new Deferred that has already failed with
    the sticky result, none is registered, and [when_received] hands out
    none of the payloads that were queued when [closed] fired: they stay
    in the queue. *)
Theorem whens_after_closed pre post result :
  calm pre = true → forallb is_when post = true →
  let w := final pre fresh in
  let w' := final (pre ++ [Closed result]) fresh in
  let w'' := final (pre ++ Closed result :: post) fresh in
  self w'' = self w' ∧
  _received_data (self w'') = _received_data (self w) ∧
  outcomes post w' = futures (seq (length (heap w')) (length post)) ∧
  heap w''
  = heap w' ++ replicate (length post) (Called (as_Failure (sticky result))).
Proof.
  intros Hpre Hpost w w' w''.
  destruct (after_closed pre result Hpre)
    as (_ & _ & _ & _ & Hdata & Ho & _).
  fold w w' in Hdata, Ho.
  assert (obj_is_none (_observer_result (self w')) = false) as Hnone.
  { rewrite Ho. apply sticky_not_None. }
  destruct (whens_leave_self post w' Hpost Hnone) as (Hs & Hout & Hh).
  unfold w''. rewrite final_closed_cons. fold w'.
  rewrite Hs, Hh, Ho. done.
Qed.

(** X10. A [received] that comes after [closed], with a request pending
    when [closed] fired: the request is taken off the list and its
    callback raises [AlreadyCalledError], for [closed] has fired it; the
    payload is put in no queue and in no Deferred. *)
Theorem late_received pre result plaintext d rest :
  calm pre = true →
  _received_observers (self (final pre fresh)) = d :: rest →
  let w' := final (pre ++ [Closed result]) fresh in
  let w'' := snd (invoke (Received plaintext) w') in
  fst (invoke (Received plaintext) w')
  = Raise (PyExc AlreadyCalledError PyNone) ∧
  _received_observers (self w'') = rest ∧
  _received_data (self w'') = _received_data (self w') ∧
  heap w'' = heap w' ∧ fired w'' = fired w'.
Proof.
  intros Hpre Hobs w' w''.
  destruct (after_closed pre result Hpre)
    as (Hsame & _ & _ & _ & _ & _ & _ & _ & _ & Hcalled).
  fold w' in Hsame, Hcalled.
  specialize (Hsame K_received). simpl in Hsame. rewrite Hobs in Hsame.
  destruct (Hcalled d) as [x Hx].
  { unfold waiting. rewrite Hobs, !elem_of_app. right. right. left.
    apply list_elem_of_here. }
  unfold w''. simpl. rewrite then_Nothing. unfold received. exec.
  rewrite Hsame. simpl. unfold callback. simpl. by rewrite Hx.
Qed.

End Events.

Lemma events_never_raise_witness :
  outcomes (H := sample_externals)
    [When_verifier; Got_verifier (PyBytes [Byte.x01]);
     Got_verifier (PyBytes [Byte.x02])] fresh !! 2
  = Some (Return Nothing).
Proof.
  apply (@events_never_raise sample_externals
           [When_verifier; Got_verifier (PyBytes [Byte.x01]);
            Got_verifier (PyBytes [Byte.x02])]
           2 (Got_verifier (PyBytes [Byte.x02])) PyNone); reflexivity.
Defined.

Lemma late_got_code_witness :
  heap (@final sample_externals
          ([When_code] ++ [Closed (PyText "lonely"); Got_code (PyText "4-x-y")])
          fresh) !! 0
  = Some (Called (Plain (PyText "4-x-y"))).
Proof.
  destruct (@late_got_code sample_externals [When_code] (PyText "lonely")
              (PyText "4-x-y") eq_refl) as (_ & Hfire & _).
  apply Hfire; [apply list_elem_of_here|reflexivity].
Defined.

Lemma late_got_raises_witness :
  fst (@invoke sample_externals (got_call Verifier (PyBytes [Byte.x01]))
         (@final sample_externals
            ([When_verifier] ++ [Closed (PyText "lonely")]) fresh))
  = Raise (PyExc AlreadyCalledError PyNone).
Proof.
  apply (@late_got_raises sample_externals [When_verifier] (PyText "lonely")
           Verifier (PyBytes [Byte.x01]) 0 []); [reflexivity|done|reflexivity].
Defined.

Lemma second_closed_witness :
  _closed_result
    (self (@final sample_externals
             ([Close] ++ [Closed (PyText "happy"); Closed (PyText "scary")])
             fresh))
  = Plain (PyText "scary").
Proof.
  apply (@second_closed sample_externals [Close] (PyText "happy")
           (PyText "scary")); reflexivity.
Defined.

Lemma whens_after_closed_witness :
  _received_data
    (self (@final sample_externals
             ([Received (PyBytes [Byte.x01])] ++ Closed (PyText "happy")
              :: [When_received]) fresh))
  = _received_data
      (self (@final sample_externals [Received (PyBytes [Byte.x01])] fresh)).
Proof.
  apply (@whens_after_closed sample_externals [Received (PyBytes [Byte.x01])]
           [When_received] (PyText "happy")); reflexivity.
Defined.

Lemma late_received_witness :
  fst (@invoke sample_externals (Received (PyBytes [Byte.x01]))
         (@final sample_externals
            ([When_received] ++ [Closed (PyText "happy")]) fresh))
  = Raise (PyExc AlreadyCalledError PyNone).
Proof.
  apply (@late_received sample_externals [When_received] (PyText "happy")
           (PyBytes [Byte.x01]) 0 []); reflexivity.
Defined.

(** ** The cached values *)

Lemma same_slot_preorder c : PreOrder (same_slot c).
Proof.
  split.
  - by intros w.
  - intros w1 w2 w3 H1 H2. unfold same_slot in *. congruence.
Qed.
#[global] Existing Instance same_slot_preorder.

Lemma same_slot_new_Deferred c : keeps (same_slot c) new_Deferred.
Proof. by intros w. Qed.

Lemma same_slot_callback c d r : keeps (same_slot c) (callback d r).
Proof.
  intros w. unfold callback. by destruct (heap w !! d) as [[|r']|].
Qed.

Lemma same_slot_errback c d r : keeps (same_slot c) (errback d r).
Proof. apply same_slot_callback. Qed.

Lemma same_slot_modify_self c f :
  (∀ s, slot c (f s) = slot c s) → keeps (same_slot c) (modify_self f).
Proof. intros Hf w. apply Hf. Qed.

Lemma same_slot_call_boss c b : keeps (same_slot c) (call_boss b).
Proof. by intros w. Qed.

Ltac same_slot_step :=
  first
    [ apply same_slot_new_Deferred | apply same_slot_callback
    | apply same_slot_errback
    | apply same_slot_modify_self; by intros []
    | apply same_slot_call_boss
    | keeps_step ].

Section Cached.
Context `{!Externals}.

Lemma got_sets_slot (f : t → t) (rest : M t unit) c w :
  keeps (same_slot c) rest →
  slot c (self (snd (((modify_self f ≫= λ _, rest) ≫= λ _, mret Nothing) w)))
  = slot c (f (self w)).
Proof.
  intros Hrest. unfold mbind, M_bind. simpl.
  specialize (Hrest (Store (f (self w)) (heap w) (fired w) (boss w))).
  unfold same_slot in Hrest. simpl in Hrest.
  by destruct (rest _) as [[[]|e] w1].
Qed.

(** [closed] and raising calls included, only [got_X] writes the value of
    [X]. *)
Lemma slot_invoke c call w :
  slot c (self (snd (invoke call w)))
  = match c, call with
    | Code, Got_code v => v
    | Verifier, Got_verifier v => v
    | Version, Got_version v => v
    | _, _ => slot c (self w)
    end.
Proof.
  assert (∀ m : M t answer, keeps (same_slot c) m →
            slot c (self (snd (m w))) = slot c (self w)) as Hk.
  { intros m Hm. apply Hm. }
  destruct c, call;
    try (apply Hk; simpl; unfold_methods; unfold succeed, fail;
         by repeat same_slot_step).
  all: cbn [invoke]; unfold_methods; rewrite got_sets_slot; [done|];
    by repeat same_slot_step.
Qed.

Lemma slot_final c cs w :
  slot c (self (final cs w)) = last_value c cs (slot c (self w)).
Proof.
  revert w. induction cs as [|call cs IH]; intros w; [done|].
  by rewrite final_cons, IH, slot_invoke.
Qed.

(** X11. The facade caches the value delivered last: at the end of any
    session in which [closed] has not fired and [got_X] delivered [value]
    last, [when_X] hands back a new Deferred that has already fired with
    [value], also when an earlier [got_X] had delivered another value,
    and changes nothing in the facade. *)
Theorem when_returns_last_value c cs value :
  calm cs = true →
  last_value c cs PyNone = value → value ≠ PyNone →
  let w := final cs fresh in
  slot c (self w) = value ∧
  invoke (when_call c) w
  = (Return (Future (length (heap w))),
     Store (self w) (heap w ++ [Called (Plain value)])
           (fired w ++ [(length (heap w), Plain value)]) (boss w)).
Proof.
  intros Hc Hv Hne w.
  assert (slot c (self w) = value) as Hs.
  { unfold w. rewrite slot_final. by destruct c. }
  split; [done|].
  pose proof (track_observer_result _ _ (track_session cs Hc)) as Ho.
  fold w in Ho.
  assert (is_none value = false) as Hn by (by destruct value).
  destruct c; simpl in *; unfold_methods; exec; rewrite Ho, Hs; simpl;
    rewrite Hn; simpl; by rewrite succeed_eq.
Qed.

End Cached.

Lemma when_returns_last_value_witness :
  slot Code
    (self (@final sample_externals
             [Got_code (PyText "1-a-b"); Got_code (PyText "2-c-d")] fresh))
  = PyText "2-c-d".
Proof.
  apply (@when_returns_last_value sample_externals Code
           [Got_code (PyText "1-a-b"); Got_code (PyText "2-c-d")]
           (PyText "2-c-d")); [reflexivity|reflexivity|discriminate].
Defined.

(** ** The exchange of messages within a whole session *)

#[global] Instance same_queues_preorder : PreOrder same_queues.
Proof.
  split.
  - by intros w.
  - intros w1 w2 w3 [??] [??]. split; congruence.
Qed.

Lemma same_queues_new_Deferred : keeps same_queues new_Deferred.
Proof. by intros w. Qed.

Lemma same_queues_callback d r : keeps same_queues (callback d r).
Proof.
  intros w. unfold callback. by destruct (heap w !! d) as [[|r']|].
Qed.

Lemma same_queues_errback d r : keeps same_queues (errback d r).
Proof. apply same_queues_callback. Qed.

Lemma same_queues_modify_self f :
  (∀ s, _received_data (f s) = _received_data s) →
  (∀ s, _received_observers (f s) = _received_observers s) →
  keeps same_queues (modify_self f).
Proof. intros H1 H2 w. split; simpl; auto. Qed.

Lemma same_queues_call_boss b : keeps same_queues (call_boss b).
Proof. by intros w. Qed.

Ltac same_queues_step :=
  first
    [ apply same_queues_new_Deferred | apply same_queues_callback
    | apply same_queues_errback
    | apply same_queues_modify_self; [by intros []|by intros []]
    | apply same_queues_call_boss
    | keeps_step ].

Section Exchange_in_session.
Context `{!Externals}.

(** No call but [received] and [when_received] touches the two queues. *)
Lemma same_queues_invoke c :
  is_exchange c = false → keeps same_queues (invoke c).
Proof.
  destruct c; simpl; try done; intros _; unfold_methods;
    unfold succeed, fail; repeat same_queues_step.
Qed.

Lemma issued_by_other k c o : kind_of c ≠ Some k → issued_by k c o = [].
Proof.
  intros Hc. unfold issued_by. destruct o as [[|d|]|]; try done.
  by case_decide.
Qed.

Lemma fifo_step c w iss ps :
  track w iss → fifo w ps (iss K_received) → is_Closed c = false →
  fifo (snd (invoke c w)) (ps ++ received_payloads [c])
       (iss K_received ++ issued_by K_received c (fst (invoke c w))).
Proof.
  intros Ht Hf Hc. destruct (is_exchange c) eqn:Hx.
  - destruct c; try done; simpl.
    + destruct (fifo_ask w ps _ Hf) as (d & Hd & Hf').
      unfold mbind, M_bind. destruct (when_received w) as [[d'|e] w1];
        simpl in *; [|done].
      injection Hd as ->. rewrite app_nil_r. unfold issued_by. simpl.
      try case_decide; done.
    + destruct (fifo_deliver w ps _ plaintext Hf) as [Hr Hf'].
      rewrite then_Nothing, Hr. simpl. by rewrite app_nil_r.
  - assert (received_payloads [c] = []) as -> by (by destruct c).
    rewrite issued_by_other by (by destruct c).
    rewrite !app_nil_r.
    pose proof (track_step c w iss Ht Hc) as Ht'.
    destruct (same_queues_invoke c Hx w) as [Hdata Hobs].
    destruct (heap_le_invoke c w) as [_ Hcalled].
    destruct Hf as [Ho Hd Hq Hcells Hnd].
    split; try done.
    + apply (track_observer_result _ _ Ht').
    + by rewrite Hdata.
    + by rewrite Hobs.
    + intros i d Hi. pose proof (Hcells i d Hi) as Hcell.
      destruct (ps !! i) as [p|]; [by apply Hcalled|].
      apply (track_pending _ _ K_received d Ht'). simpl. rewrite Hobs.
      apply (track_observers _ _ Ht K_received). split; [|done].
      by eapply list_elem_of_lookup_2.
Qed.

Lemma received_payloads_cons c cs :
  received_payloads (c :: cs) = received_payloads [c] ++ received_payloads cs.
Proof. by destruct c. Qed.

Lemma fifo_session cs w iss ps :
  track w iss → fifo w ps (iss K_received) → calm cs = true →
  fifo (final cs w) (ps ++ received_payloads cs)
       (iss K_received ++ issued K_received cs (outcomes cs w)).
Proof.
  revert w iss ps. induction cs as [|c cs IH]; intros w iss ps Ht Hf Hc.
  - unfold final. simpl. by rewrite !app_nil_r.
  - simpl in Hc. apply andb_true_iff in Hc as [Hc Hcs].
    apply negb_true_iff in Hc.
    rewrite final_cons, outcomes_cons, received_payloads_cons.
    simpl issued. rewrite !app_assoc.
    exact (IH _ (λ k, iss k ++ issued_by k c (fst (invoke c w))) _
              (track_step c w iss Ht Hc) (fifo_step c w iss ps Ht Hf Hc) Hcs).
Qed.

(** X12. The pairing of payloads and requests holds in every session in
    which [closed] has not fired, whatever other calls and events are
    interleaved with [received] and [when_received]: with [ps] the
    payloads in the order delivered and [rs] the Deferreds of
    [when_received] in the order handed out, request [i] has fired with
    payload [i] when there is one and is pending otherwise, the queues
    hold the payloads beyond the last request and the requests beyond the
    last payload, and one of the two queues is empty. *)
Theorem exchange_in_any_session cs :
  calm cs = true →
  let w := final cs fresh in
  let ps := received_payloads cs in
  let rs := issued K_received cs (outcomes cs fresh) in
  NoDup rs ∧
  (∀ i d, rs !! i = Some d →
          heap w !! d = Some match ps !! i with
                             | Some plaintext => Called (Plain plaintext)
                             | None => Pending
                             end) ∧
  _received_data (self w) = drop (length rs) ps ∧
  _received_observers (self w) = drop (length ps) rs ∧
  (_received_data (self w) = [] ∨ _received_observers (self w) = []).
Proof.
  intros Hc w ps rs.
  destruct (fifo_session cs fresh (λ _, []) [] track_fresh fifo_fresh Hc)
    as [_ Hd Ho Hcells Hnd].
  simpl in Hd, Ho, Hcells, Hnd. fold w ps rs in Hd, Ho, Hcells, Hnd.
  split_and!; try done.
  destruct (decide (length ps ≤ length rs)).
  - left. rewrite Hd. by apply drop_ge.
  - right. rewrite Ho. apply drop_ge. lia.
Qed.

End Exchange_in_session.

Lemma exchange_in_any_session_witness :
  _received_data
    (self (@final sample_externals
             [When_code; Received (PyBytes [Byte.x01]); Got_code (PyText "1-a");
              Received (PyBytes [Byte.x02]); When_received] fresh))
  = [PyBytes [Byte.x02]].
Proof.
  apply (@exchange_in_any_session sample_externals
           [When_code; Received (PyBytes [Byte.x01]); Got_code (PyText "1-a");
            Received (PyBytes [Byte.x02]); When_received] eq_refl).
Defined.

(** ** The motd *)

Lemma append_cons c s1 s2 : String c s1 +:+ s2 = String c (s1 +:+ s2).
Proof. reflexivity. Qed.

Lemma append_nil_l s : "" +:+ s = s.
Proof. reflexivity. Qed.

Lemma append_assoc' s1 s2 s3 : (s1 +:+ s2) +:+ s3 = s1 +:+ s2 +:+ s3.
Proof.
  induction s1 as [|c s1 IH]; [done|]. rewrite !append_cons. by f_equal.
Qed.

Lemma append_nil_r' s : s +:+ "" = s.
Proof.
  induction s as [|c s IH]; [done|]. rewrite append_cons. by f_equal.
Qed.

Lemma one_line_app s1 s2 :
  one_line (s1 +:+ s2) = one_line s1 && one_line s2.
Proof.
  induction s1 as [|c s1 IH]; [done|]. rewrite append_cons. simpl.
  by rewrite IH, andb_assoc.
Qed.

(** Reading a stretch without line boundaries adds it to the line being
    read. *)
Lemma splitlines_from_one_line line l rest :
  one_line l = true →
  splitlines_from line false (l +:+ rest)
  = splitlines_from (line +:+ l) false rest.
Proof.
  revert line. induction l as [|c l IH]; intros line Hl.
  - by rewrite append_nil_l, append_nil_r'.
  - simpl in Hl. apply andb_true_iff in Hl as [Hc Hl].
    apply negb_true_iff in Hc. rewrite append_cons. simpl.
    rewrite Hc, IH by done. by rewrite append_assoc'.
Qed.

Lemma splitlines_from_LF line rest :
  splitlines_from line false (String LF rest)
  = line :: splitlines_from "" false rest.
Proof. done. Qed.

(** The lines that [splitlines] gives hold no line boundary. *)
Lemma splitlines_from_lines line after_cr s :
  one_line line = true →
  Forall (λ l, one_line l = true) (splitlines_from line after_cr s).
Proof.
  revert line after_cr. induction s as [|c s IH]; intros line after_cr Hl.
  - simpl. destruct line; [apply Forall_nil_2|]. by apply Forall_singleton.
  - simpl. destruct (after_cr && Ascii.eqb c LF); [by apply IH|].
    destruct (is_linebreak c) eqn:Hc.
    + apply Forall_cons. split; [done|]. by apply IH.
    + apply IH. rewrite one_line_app, Hl. simpl. by rewrite Hc.
Qed.

(** Splitting again the lines joined by a line feed and a space: every
    line comes back with the space before it. *)
Lemma splitlines_join ls :
  Forall (λ l, one_line l = true) ls →
  splitlines_from " " false (join (String LF " ") ls)
  = map (String " ") match ls with [] => [""] | _ => ls end.
Proof.
  induction ls as [|l ls IH]; intros Hls; [done|].
  apply Forall_cons in Hls as [Hl Hls].
  destruct ls as [|l' ls].
  - unfold join. simpl String.concat. rewrite <- (append_nil_r' l) at 1.
    by rewrite splitlines_from_one_line.
  - specialize (IH Hls). unfold join in *.
    change (String.concat (String LF " ") (l :: l' :: ls))
      with (l +:+ String LF (" " +:+ String.concat (String LF " ") (l' :: ls))).
    rewrite splitlines_from_one_line, splitlines_from_LF by done.
    rewrite (splitlines_from_one_line "" " ") by done.
    rewrite append_nil_l, IH. done.
Qed.

Section Motd.
Import WelcomeHandler.

Lemma motd_message_eq url formatted :
  motd_message url formatted
  = ("Server (at " +:+ url +:+ ") says:") +:+ String LF (" " +:+ formatted).
Proof. unfold motd_message. by rewrite !append_assoc'. Qed.

(** X13. The motd is printed as one message whose lines are a heading and
    then the lines of the motd, each with one space before it: when the
    URL holds no line boundary, splitting the message into lines again
    gives the heading followed by the lines of [motd.splitlines()], each
    indented by a space (and a single space when the motd has no line). *)
Theorem motd_lines_indented self welcome motd :
  welcome !! "motd" = Some motd →
  one_line (_ws_url self) = true →
  ∃ rest,
    (handle_welcome self welcome).1.2
    = motd_message (_ws_url self) (join (String LF " ") (splitlines motd))
      :: rest ∧
    splitlines (motd_message (_ws_url self)
                  (join (String LF " ") (splitlines motd)))
    = ("Server (at " +:+ _ws_url self +:+ ") says:")
      :: map (String " ")
             match splitlines motd with [] => [""] | ls => ls end.
Proof.
  intros Hm Hurl. unfold handle_welcome. rewrite Hm.
  destruct (welcome !! "current_cli_version") as [theirs|];
    [destruct (_ && _)|]; simpl; eexists; split; try reflexivity.
  all: unfold splitlines; rewrite motd_message_eq.
  all: rewrite (splitlines_from_one_line "")
    by (by rewrite !one_line_app, Hurl).
  all: rewrite append_nil_l, splitlines_from_LF.
  all: rewrite (splitlines_from_one_line "" " ") by done.
  all: rewrite append_nil_l, splitlines_join;
    [|by apply splitlines_from_lines].
  all: by destruct (splitlines_from "" false motd).
Qed.

Lemma is_motd_message_motd url formatted :
  is_motd_message (motd_message url formatted) = true.
Proof.
  unfold is_motd_message, motd_message.
  change (String.prefix "" (url +:+ ") says:" +:+ String LF " " +:+ formatted)
          = true).
  by destruct (url +:+ _).
Qed.

Lemma motds_app l1 l2 : motds (l1 ++ l2) = motds l1 + motds l2.
Proof. unfold motds. by rewrite filter_app, length_app. Qed.

Lemma handle_welcome_motds self welcome :
  motds (handle_welcome self welcome).1.2
  = if welcome !! "motd" is Some _ then 1 else 0.
Proof.
  assert (∀ theirs ours,
            motds [version_warning; server_claims theirs ours] = 0) as Hw.
  { intros theirs ours. unfold motds.
    by rewrite !filter_cons_False by done. }
  unfold handle_welcome.
  assert (motds match welcome !! "motd" with
                | Some motd =>
                    [motd_message (_ws_url self)
                       (join (String LF " ") (splitlines motd))]
                | None => []
                end = if welcome !! "motd" is Some _ then 1 else 0) as Hm.
  { destruct (welcome !! "motd"); [|done]. unfold motds.
    by rewrite filter_cons_True by apply is_motd_message_motd. }
  destruct (welcome !! "current_cli_version") as [theirs|];
    [destruct (_ && _)|]; simpl; rewrite motds_app, Hm, ?Hw;
    unfold motds; simpl; lia.
Qed.

(** X14. The motd has no latch: over any sequence of welcomes delivered
    to one handler, whatever its state, a motd message is printed once
    for every welcome that has a [motd], the ones after a version warning
    and the ones with an [error] included. *)
Theorem motd_every_time self welcomes :
  motds (deliver self welcomes).2 = with_motd welcomes.
Proof.
  revert self. induction welcomes as [|welcome rest IH]; intros self;
    [done|].
  rewrite deliver_cons. simpl. rewrite motds_app, IH, handle_welcome_motds.
  unfold with_motd. rewrite filter_cons.
  destruct (welcome !! "motd") eqn:Hm; case_decide as Hd; simpl;
    try done.
  all: first [ by destruct Hd | exfalso; apply Hd; eauto ].
Qed.

End Motd.

Lemma motd_lines_indented_witness :
  splitlines
    (WelcomeHandler.motd_message "ws://relay"
       (join (String LF " ")
          (splitlines ("hello" +:+ String CR (String LF "world")))))
  = ["Server (at ws://relay) says:"; " hello"; " world"].
Proof.
  destruct (motd_lines_indented
              (WelcomeHandler.__init__ "ws://relay" "0.9.1"
                 WelcomeHandler.Callable)
              {[ "motd" := "hello" +:+ String CR (String LF "world") ]}
              ("hello" +:+ String CR (String LF "world")))
    as (rest & _ & Hsplit); [by vm_compute|reflexivity|].
  exact Hsplit.
Defined.

(** ** [serialize] and [from_serialized] *)

Section Restoring.
Import Serialized.

(** X15. [from_serialized] never returns a facade.  Every call ends in an
    exception: before the facade is built only a [KeyError] or an
    [AssertionError] of the version check, and only when assertions are
    on; afterwards the facade has the given delegate, no key and no
    Deferred, and either the controller was never started or it was
    started once and the call then ends in the [TypeError] of
    [raise NotImplemented]. *)
Theorem from_serialized_never_returns
    (Boss_from_serialized : pyval → outcome unit) (__debug__ : bool)
    (serialized : gmap string pyval)
    (delegate : list DelegatedWormhole.notification) :
  ∃ e,
    (from_serialized Boss_from_serialized __debug__ serialized delegate).1
    = Raise e ∧
    match
      (from_serialized Boss_from_serialized __debug__ serialized delegate).2
    with
    | None =>
        __debug__ = true ∧
        (e = KeyError "serialized_wormhole_version" ∨ e = AssertionError)
    | Some w =>
        self w = DelegatedWormhole.__init__ delegate ∧ heap w = [] ∧
        (boss w = [] ∨ (boss w = [B_start] ∧ e = not_an_exception))
    end.
Proof.
  unfold from_serialized, assert_version, subscript.
  destruct __debug__;
    [destruct (serialized !! "serialized_wormhole_version") as [version|];
     [destruct (eq_one version)|]|];
    try (by eexists; split; [done|]; simpl; eauto).
  all: unfold mbind, M_bind, lift, call_boss, raise; simpl.
  all: destruct (serialized !! "boss") as [state|]; simpl;
    [destruct (Boss_from_serialized state); simpl|].
  all: eexists; split; [done|]; simpl; eauto.
Qed.


End Restoring.

